(** * gpt_repository_loader: ignore matching, concatenation and splitting

    A shallow embedding of [gpt_repository_loader.py].  Python [str] values
    are Rocq [string]s (one character per element), Python [int]s are [Z],
    and the console, the output sink and the exceptions of the script are
    threaded explicitly.  Library functions of Python that the script calls
    ([fnmatch.fnmatch], [os.path.join], [os.path.relpath], the file system
    itself) are Section variables: every theorem holds for all of them.

    The script opens all its files in text mode.  A file is therefore the
    text that reading it yields and that writing it stores, with every line
    ending in the single character LF; sizes computed by the script with
    [len] count characters of that text.  The bytes behind the text, with
    the newline translation of text mode, are modelled for the Output
    Splitter, where a statement speaks of them. *)

From Stdlib Require Import Bool List ZArith Lia Ascii String.
From Stdlib Require Import Numbers.DecimalString.
From Stdlib Require Numbers.DecimalNat.
Import ListNotations.

Local Open Scope string_scope.
Local Open Scope Z_scope.

(** ** Python string primitives used by the script *)

Module PyStr.

Definition LF : ascii := "010"%char.

(** [len(s)] *)
Definition len (s : string) : Z := Z.of_nat (String.length s).

(** [s.startswith(p)] *)
Fixpoint startswith (p s : string) : bool :=
  match p with
  | EmptyString => true
  | String a p' =>
      match s with
      | EmptyString => false
      | String b s' => Ascii.eqb a b && startswith p' s'
      end
  end.

(** [p in s] on two strings: [p] occurs somewhere in [s]. *)
Fixpoint contains (p s : string) : bool :=
  startswith p s ||
  match s with
  | EmptyString => false
  | String _ s' => contains p s'
  end.

(** The relation [contains] decides. *)
Definition Substring (p s : string) : Prop :=
  exists a b, s = a ++ p ++ b.

(** [c.isspace()] for the code points below 256. *)
Definition isspace (c : ascii) : bool :=
  let n := N_of_ascii c in
  ((9 <=? n) && (n <=? 13) || (28 <=? n) && (n <=? 32)
   || (n =? 133) || (n =? 160))%N.

Fixpoint lstrip (s : string) : string :=
  match s with
  | EmptyString => EmptyString
  | String c s' => if isspace c then lstrip s' else s
  end.

Fixpoint rstrip (s : string) : string :=
  match s with
  | EmptyString => EmptyString
  | String c s' =>
      match rstrip s' with
      | EmptyString => if isspace c then EmptyString else String c EmptyString
      | r => String c r
      end
  end.

(** [s.strip()] *)
Definition strip (s : string) : string := rstrip (lstrip s).

(** [s.replace(a, b)] for one-character [a] and [b]. *)
Fixpoint replace_char (a b : ascii) (s : string) : string :=
  match s with
  | EmptyString => EmptyString
  | String c s' =>
      String (if Ascii.eqb c a then b else c) (replace_char a b s')
  end.

(** Iterating over a text file: the lines of its text, each with its
    newline kept; the last one has none when the text does not end in a
    newline. *)
Fixpoint lines_of (s : string) : list string :=
  match s with
  | EmptyString => []
  | String c s' =>
      if Ascii.eqb c LF then String c EmptyString :: lines_of s'
      else match lines_of s' with
           | [] => [String c EmptyString]
           | l :: ls => String c l :: ls
           end
  end.

(** [s[:-4]] *)
Definition drop_last4 (s : string) : string :=
  String.substring 0 (String.length s - 4) s.

(** [str(i)] for a non-negative index. *)
Definition str_of_nat (i : nat) : string :=
  NilEmpty.string_of_uint (Nat.to_uint i).

(** ["".join(l)] *)
Definition join (l : list string) : string := String.concat "" l.

(** [c * n] *)
Fixpoint repeat_char (c : ascii) (n : nat) : string :=
  match n with
  | O => EmptyString
  | S n' => String c (repeat_char c n')
  end.

End PyStr.
Import PyStr.

(** A wildcard matcher for running examples: the [*] and [?] fragment of
    shell globbing on a case-sensitive platform.  It instantiates the
    [fnmatch] variable below; no theorem depends on it. *)
Fixpoint glob (pat s : string) : bool :=
  match pat with
  | EmptyString => String.eqb s EmptyString
  | String "*" pat' =>
      (fix star (t : string) : bool :=
         glob pat' t ||
         match t with
         | EmptyString => false
         | String _ t' => star t'
         end) s
  | String "?" pat' =>
      match s with
      | EmptyString => false
      | String _ s' => glob pat' s'
      end
  | String c pat' =>
      match s with
      | EmptyString => false
      | String d s' => Ascii.eqb c d && glob pat' s'
      end
  end.

(** In the argument order of [fnmatch.fnmatch(name, pat)]. *)
Definition fnmatch_wild (name pat : string) : bool := glob pat name.

(** ** Ignore Matcher *)

Section IgnoreMatcher.

(** [fnmatch.fnmatch(name, pat)] of the Python library. *)
Variable fnmatch : string -> string -> bool.
(** The module-level [verbose] that [should_ignore] reads. *)
Variable verbose : bool.

(** The comprehension's guard: [pattern and not pattern.startswith("#")]. *)
Definition effective (pattern : string) : bool :=
  negb (String.eqb pattern EmptyString) && negb (startswith "#" pattern).

(** The test of the loop body. *)
Definition hits (file_path pattern : string) : bool :=
  contains pattern file_path
  || String.eqb pattern file_path
  || fnmatch file_path pattern.

(** The loop over the filtered list: answer and what was printed. *)
Fixpoint first_hit (file_path : string) (patterns : list string)
  : bool * list string :=
  match patterns with
  | [] => (false, [])
  | pattern :: rest =>
      if hits file_path pattern
      then (true,
            if verbose
            then ["ignoring " ++ file_path ++ " because it matches " ++ pattern]
            else [])
      else first_hit file_path rest
  end.

Definition should_ignore (file_path : string) (ignore_list : list string)
  : bool * list string :=
  first_hit file_path (filter effective ignore_list).

End IgnoreMatcher.

(** ** Pattern loader *)

(** [get_ignore_list], applied to the text of the ignore file: one entry per
    line, path separators rewritten on win32, then stripped. *)
Definition get_ignore_list (win32 : bool) (ignore_file : string) : list string :=
  map (fun line =>
         let line := if win32 then replace_char "/" "\" line else line in
         strip line)
      (lines_of ignore_file).

(** ** Effects: console, files and exceptions *)

Inductive exn : Type :=
| OSError (path : string)
| IndexError
| ValueError
| SystemExit (code : Z).

Inductive outcome (A : Type) : Type :=
| Returned (a : A)
| Raised (e : exn).
Arguments Returned {A} a.
Arguments Raised {A} e.

(** A computation over a state [S] that returns or raises; the state reached
    is kept in both cases. *)
Definition M (S A : Type) : Type := S -> S * outcome A.

Definition ret {S A} (a : A) : M S A := fun s => (s, Returned a).

Definition raise {S A} (e : exn) : M S A := fun s => (s, Raised e).

Definition bind {S A B} (m : M S A) (k : A -> M S B) : M S B :=
  fun s =>
    match m s with
    | (s', Returned a) => k a s'
    | (s', Raised e) => (s', Raised e)
    end.

Definition lift {S A} (o : outcome A) : M S A := fun s => (s, o).

Declare Scope py_scope.
Delimit Scope py_scope with py.
Notation "x <- m ;; k" := (bind m (fun x => k))
  (at level 61, m at next level, right associativity) : py_scope.
Notation "m ;; k" := (bind m (fun _ => k))
  (at level 61, right associativity) : py_scope.
Local Open Scope py_scope.

Definition when {S} (b : bool) (m : M S unit) : M S unit :=
  if b then m else ret tt.

(** [for x in l: body(x)] *)
Fixpoint for_each {S A} (l : list A) (body : A -> M S unit) : M S unit :=
  match l with
  | [] => ret tt
  | x :: rest => body x ;; for_each rest body
  end.

(** ** Repository Concatenator *)

Definition LARGE_FILE_SIZE : Z := 1000000.
Definition SPLIT_SIZE : Z := 4000000.

Definition nl : string := String LF EmptyString.
Definition ESC : string := String "027"%char EmptyString.

(** The open output file and the console. *)
Record io : Type := mk_io { sink : string; console : list string }.

Definition write (s : string) : M io unit :=
  fun w => (mk_io (sink w ++ s) (console w), Returned tt).

Definition print (s : string) : M io unit :=
  fun w => (mk_io (sink w) (console w ++ [s]), Returned tt).

Definition prints (l : list string) : M io unit :=
  fun w => (mk_io (sink w) (console w ++ l), Returned tt).

(** The three [write] calls of one Record. *)
Definition record_text (relative_file_path contents : string) : string :=
  (repeat_char "-" 4 ++ nl) ++ (relative_file_path ++ nl) ++ (contents ++ nl).

Section Concatenator.

Variable fnmatch : string -> string -> bool.
(** The module-level [verbose] read by [should_ignore]. *)
Variable g_verbose : bool.
(** [os.path.join] and [os.path.relpath]. *)
Variable path_join : string -> string -> string.
Variable relpath : string -> string -> string.
(** [os.stat(p).st_size]; [None] where [os.path.exists(p)] is false. *)
Variable stat_size : string -> option Z.
(** [open(p, 'r', errors='ignore').read()]; [None] where [open] raises. *)
Variable read_text : string -> option string.
(** [os.walk(p)]: each directory with the files in it. *)
Variable os_walk : string -> list (string * list string).

Definition path_exists (p : string) : bool :=
  match stat_size p with Some _ => true | None => false end.

Definition too_large (p : string) : bool :=
  match stat_size p with
  | Some n => n >? LARGE_FILE_SIZE
  | None => false
  end.

Definition read_file (p : string) : M io string :=
  match read_text p with
  | Some contents => ret contents
  | None => raise (OSError p)
  end.

(** The body of the inner loop. *)
Definition process_file (repo_path : string) (ignore_list : list string)
    (verbose exclude_large_files : bool) (root file : string) : M io unit :=
  let file_path := path_join root file in
  let relative_file_path := relpath file_path repo_path in
  if exclude_large_files && path_exists file_path && too_large file_path
  then
    when verbose
      (print (ESC ++ "[90m" ++ relative_file_path
              ++ " (excluded because it is too large)" ++ ESC ++ "[0m"))
  else
    let '(ignored, said) :=
      should_ignore fnmatch g_verbose relative_file_path ignore_list in
    prints said ;;
    if negb ignored
    then
      contents <- read_file file_path ;;
      write (repeat_char "-" 4 ++ nl) ;;
      write (relative_file_path ++ nl) ;;
      write (contents ++ nl) ;;
      when verbose (print relative_file_path)
    else
      when verbose (print (ESC ++ "[90m" ++ relative_file_path ++ ESC ++ "[0m")).

Definition process_repository (repo_path : string) (ignore_list : list string)
    (verbose exclude_large_files : bool) : M io unit :=
  for_each (os_walk repo_path)
    (fun '(root, files) =>
       for_each files
         (process_file repo_path ignore_list verbose exclude_large_files root)).

(** The two loops as one, over the files as (root, name). *)
Definition process_files (repo_path : string) (ignore_list : list string)
    (verbose exclude_large_files : bool) (fs : list (string * string))
  : M io unit :=
  for_each fs
    (fun f => process_file repo_path ignore_list verbose exclude_large_files
                (fst f) (snd f)).

(** The files of the walk, in order, as (root, name). *)
Definition walked (repo_path : string) : list (string * string) :=
  flat_map (fun '(root, files) => map (pair root) files) (os_walk repo_path).

Definition rel_of (repo_path : string) (f : string * string) : string :=
  relpath (path_join (fst f) (snd f)) repo_path.

(** A file gets a Record: not skipped for its size and not ignored. *)
Definition included (repo_path : string) (ignore_list : list string)
    (exclude_large_files : bool) (f : string * string) : bool :=
  let file_path := path_join (fst f) (snd f) in
  negb (exclude_large_files && path_exists file_path && too_large file_path)
  && negb (fst (should_ignore fnmatch g_verbose (rel_of repo_path f) ignore_list)).

Definition contents_of (f : string * string) : string :=
  match read_text (path_join (fst f) (snd f)) with
  | Some contents => contents
  | None => EmptyString
  end.

Definition readable (f : string * string) : bool :=
  match read_text (path_join (fst f) (snd f)) with
  | Some _ => true
  | None => false
  end.

(** What a run over the files [fs] adds to the sink and how it ends. *)
Fixpoint emitted (repo_path : string) (ignore_list : list string)
    (exclude_large_files : bool) (fs : list (string * string))
  : string * outcome unit :=
  match fs with
  | [] => (EmptyString, Returned tt)
  | f :: rest =>
      if included repo_path ignore_list exclude_large_files f
      then
        match read_text (path_join (fst f) (snd f)) with
        | Some contents =>
            let '(s, o) := emitted repo_path ignore_list exclude_large_files rest in
            (record_text (rel_of repo_path f) contents ++ s, o)
        | None => (EmptyString, Raised (OSError (path_join (fst f) (snd f))))
        end
      else emitted repo_path ignore_list exclude_large_files rest
  end.

End Concatenator.

(** ** Output Splitter *)

(** The loop state: [chunks], [chunk] and [chunk_size]. *)
Record splitter : Type :=
  mk_splitter { chunks : list string; chunk : string; chunk_size : Z }.

Definition splitter_init : splitter := mk_splitter [] EmptyString 0.

(** One iteration of [for line in input_file]. *)
Definition split_step (st : splitter) (line : string) : splitter :=
  if startswith (repeat_char "-" 4) line
  then
    let st :=
      if chunk_size st >? SPLIT_SIZE
      then mk_splitter (chunks st ++ [chunk st]) EmptyString 0
      else st in
    mk_splitter (chunks st) (chunk st ++ line) (chunk_size st + len line)
  else
    mk_splitter (chunks st) (chunk st ++ line) (chunk_size st + len line).

(** The list [chunks] after the loop and the final [append]. *)
Definition split_chunks (lines : list string) : list string :=
  let st := fold_left split_step lines splitter_init in
  chunks st ++ [chunk st].

(** The same loop keeping the lines of each chunk apart, to speak about
    where a line lands. *)
Record grouper : Type :=
  mk_grouper { groups : list (list string); group : list string; group_size : Z }.

Definition group_step (st : grouper) (line : string) : grouper :=
  if startswith (repeat_char "-" 4) line
  then
    let st :=
      if group_size st >? SPLIT_SIZE
      then mk_grouper (groups st ++ [group st]) [] 0
      else st in
    mk_grouper (groups st) (group st ++ [line]) (group_size st + len line)
  else
    mk_grouper (groups st) (group st ++ [line]) (group_size st + len line).

Definition split_groups (lines : list string) : list (list string) :=
  let st := fold_left group_step lines (mk_grouper [] [] 0) in
  groups st ++ [group st].

(** [f"{file_path[:-4]}_{i}.txt"] *)
Definition chunk_name (file_path : string) (i : nat) : string :=
  drop_last4 file_path ++ "_" ++ str_of_nat i ++ ".txt".

(** [enumerate(l)], counting from [i]. *)
Fixpoint enumerate_from {A} (i : nat) (l : list A) : list (nat * A) :=
  match l with
  | [] => []
  | x :: rest => (i, x) :: enumerate_from (S i) rest
  end.

(** The files written so far, oldest first, and the console. *)
Record host : Type :=
  mk_host { written : list (string * string); screen : list string }.

Definition write_file (path text : string) : M host unit :=
  fun h => (mk_host (written h ++ [(path, text)]) (screen h), Returned tt).

Definition say (s : string) : M host unit :=
  fun h => (mk_host (written h) (screen h ++ [s]), Returned tt).

(** The newest file written under [path], if any. *)
Fixpoint newest (path : string) (files : list (string * string)) : option string :=
  match files with
  | [] => None
  | (p, text) :: rest =>
      match newest path rest with
      | Some t => Some t
      | None => if String.eqb p path then Some text else None
      end
  end.

Section Splitter.

(** The files present before the run. *)
Variable read_text : string -> option string.

Definition open_read (path : string) : M host string :=
  fun h =>
    match newest path (written h) with
    | Some text => (h, Returned text)
    | None =>
        match read_text path with
        | Some text => (h, Returned text)
        | None => (h, Raised (OSError path))
        end
    end.

Definition split_file (file_path : string) : M host unit :=
  text <- open_read file_path ;;
  let chunks := split_chunks (lines_of text) in
  for_each (enumerate_from 0 chunks)
    (fun '(i, chunk) =>
       write_file (chunk_name file_path i) chunk ;;
       say ("Chunk " ++ str_of_nat i ++ " written to " ++ chunk_name file_path i)) ;;
  say "All chunks written.".

End Splitter.

(** The chunk files of an input with text [text]. *)
Definition chunk_files (file_path text : string) : list (string * string) :=
  map (fun '(i, chunk) => (chunk_name file_path i, chunk))
      (enumerate_from 0 (split_chunks (lines_of text))).

(** *** The bytes behind the text

    [split_file] opens its input with [open(file_path, 'r')] and its chunk
    files with [open(..., 'w')]: both in text mode with the default
    [newline=None].  Reading then gives LF for every CR LF and every CR that
    stands alone; writing stores the platform's line separator for every LF.
    The codec is taken to pair bytes and characters one to one. *)

Definition CR : ascii := "013"%char.

(** The text that reading in text mode gives of the bytes [b]; [after_cr]
    says that the byte before was a CR. *)
Fixpoint read_newlines (after_cr : bool) (b : string) : string :=
  match b with
  | EmptyString => EmptyString
  | String c rest =>
      if Ascii.eqb c CR then String LF (read_newlines true rest)
      else if Ascii.eqb c LF && after_cr then read_newlines false rest
      else String c (read_newlines false rest)
  end.

Definition text_of_bytes (b : string) : string := read_newlines false b.

(** The bytes that writing the text [t] in text mode stores, where
    [os.linesep] is [linesep]. *)
Fixpoint bytes_of_text (linesep : string) (t : string) : string :=
  match t with
  | EmptyString => EmptyString
  | String c rest =>
      if Ascii.eqb c LF then linesep ++ bytes_of_text linesep rest
      else String c (bytes_of_text linesep rest)
  end.

(** No CR in [t]. *)
Fixpoint cr_free (t : string) : bool :=
  match t with
  | EmptyString => true
  | String c rest => negb (Ascii.eqb c CR) && cr_free rest
  end.

(** The two values of [os.linesep]. *)
Definition posix_linesep : string := nl.
Definition windows_linesep : string := String CR nl.

(** Reading in text mode from files given by their bytes. *)
Definition text_mode (disk : string -> option string) (p : string)
  : option string :=
  match disk p with
  | Some b => Some (text_of_bytes b)
  | None => None
  end.

(** The bytes of the chunk files, one after the other. *)
Definition chunk_bytes (linesep : string) (files : list (string * string))
  : string :=
  join (map (fun f => bytes_of_text linesep (snd f)) files).

(** ** Command line *)

(** [x in l] *)
Definition mem (x : string) (l : list string) : bool :=
  existsb (String.eqb x) l.

(** [l.index(x)]: the position of the first occurrence. *)
Fixpoint index (x : string) (l : list string) : outcome nat :=
  match l with
  | [] => Raised ValueError
  | y :: rest =>
      if String.eqb y x then Returned O
      else match index x rest with
           | Returned i => Returned (S i)
           | Raised e => Raised e
           end
  end.

(** [l[i]] for a non-negative [i]. *)
Definition subscript (l : list string) (i : nat) : outcome string :=
  match nth_error l i with
  | Some v => Returned v
  | None => Raised IndexError
  end.

(** [sys.argv[sys.argv.index(flag) + 1]] *)
Definition argument_after (flag : string) (argv : list string) : outcome string :=
  match index flag argv with
  | Returned i => subscript argv (i + 1)
  | Raised e => Raised e
  end.

Definition usage : string :=
  "Usage: python git_to_text.py /path/to/git/repository " ++ nl ++
  "              -p /path/to/preamble.txt" ++ nl ++
  "              -o /path/to/output_file.txt" ++ nl ++
  "              -l list all files to be included with ignored files in gray " ++ nl ++
  "              -v verbose output" ++ nl ++
  "              -s split output into multiple files".

Definition default_preamble : string :=
  "The following text is a Git repository with code. The structure of the text are sections that begin with ----, followed by a single line containing the file path and file name, followed by a variable amount of lines containing the file contents. The text representing the Git repository ends when the symbols --END-- are encounted. Any further text beyond --END-- are meant to be interpreted as instructions using the aforementioned Git repository as context."
  ++ nl.

Section Main.

Variable fnmatch : string -> string -> bool.
Variable path_join : string -> string -> string.
Variable relpath : string -> string -> string.
Variable stat_size : string -> option Z.
Variable read_text : string -> option string.
Variable os_walk : string -> list (string * list string).
(** [sys.platform == "win32"] and the directory of the script. *)
Variable win32 : bool.
Variable HERE : string.
(** What [tree(Path(repo_path), level=3, ...)] prints and how it ends. *)
Variable tree : string -> list string -> list string * outcome unit.
(** Whether two paths name the same file, and how much of the text written
    so far to the open output file has reached the file.  [stat_size] and
    [read_text] are the files as they are before the output file is opened,
    [os_walk] is what the walk yields while it is open. *)
Variable same_file : string -> string -> bool.
Variable flushed : string -> string.

(** [with open(path, 'w') as output_file: body]: the file holds what was
    written to it, also when the body raises. *)
Definition with_output (path : string) (body : M io unit) : M host unit :=
  fun h =>
    let '(w, r) := body (mk_io EmptyString (screen h)) in
    (mk_host (written h ++ [(path, sink w)]) (console w), r).

(** [with open(path, 'a') as output_file: output_file.write(s)] *)
Definition append_file (path s : string) : M host unit :=
  fun h =>
    let old :=
      match newest path (written h) with
      | Some text => text
      | None => match read_text path with Some text => text | None => EmptyString end
      end in
    (mk_host (written h ++ [(path, old ++ s)]) (screen h), Returned tt).

Definition read_host (path : string) : M host string :=
  open_read read_text path.

(** The files while the output file [out] is open for writing and holds
    the text of [w]: [out] itself, truncated by [open], has what has been
    flushed to it; the other files are as before. *)
Definition stat_while_open (out : string) (w : io) (p : string) : option Z :=
  if same_file p out then Some (len (flushed (sink w))) else stat_size p.

Definition read_while_open (out : string) (w : io) (p : string)
  : option string :=
  if same_file p out then Some (flushed (sink w)) else read_text p.

(** The call of [process_repository] at line 192: its two loops, each file
    meeting the files as they are at that moment. *)
Definition process_repository_while_open (out repo_path : string)
    (ignore_list : list string) (verbose exclude_large_files : bool)
  : M io unit :=
  for_each (os_walk repo_path)
    (fun '(root, files) =>
       for_each files
         (fun file w =>
            process_file fnmatch verbose path_join relpath
              (stat_while_open out w) (read_while_open out w)
              repo_path ignore_list verbose exclude_large_files root file w)).

(** [if preamble_file: ... else: ...], inside the [with] of the output
    file. *)
Definition write_preamble (out : string) (preamble_file : option string)
  : M io unit :=
  match preamble_file with
  | Some pf =>
      if negb (String.eqb pf EmptyString)
      then
        fun w =>
          (preamble_text <- read_file (read_while_open out w) pf ;;
           write (preamble_text ++ nl)) w
      else write default_preamble
  | None => write default_preamble
  end.

Definition main (argv : list string) : M host unit :=
  if Z.of_nat (List.length argv) <? 2
  then say usage ;; raise (SystemExit 1)
  else
    repo_path <- lift (subscript argv 1) ;;
    let ignore_file_path := path_join repo_path ".gptignore" in
    let ignore_file_path :=
      if win32 then replace_char "/" "\" ignore_file_path else ignore_file_path in
    let ignore_file_path :=
      if negb (path_exists stat_size ignore_file_path)
      then path_join HERE ".gptignore" else ignore_file_path in
    preamble_file <-
      (if mem "-p" argv
       then v <- lift (argument_after "-p" argv) ;; ret (Some v)
       else ret None) ;;
    output_file_path <-
      (if mem "-o" argv
       then lift (argument_after "-o" argv)
       else ret "output.txt") ;;
    ignore_list <-
      (if path_exists stat_size ignore_file_path
       then text <- read_host ignore_file_path ;; ret (get_ignore_list win32 text)
       else ret []) ;;
    when (mem "-l" argv)
      (fun h =>
         let '(lines, r) := tree repo_path ignore_list in
         (mk_host (written h) (screen h ++ lines), r)) ;;
    let verbose := mem "-v" argv in
    let exclude_large_files := mem "-x" argv in
    let split_output := mem "-s" argv in
    with_output output_file_path
      (write_preamble output_file_path preamble_file ;;
       process_repository_while_open output_file_path repo_path ignore_list
         verbose exclude_large_files) ;;
    append_file output_file_path "--END--" ;;
    if split_output
    then split_file read_text output_file_path
    else say ("Repository contents written to " ++ output_file_path ++ ".").

End Main.

(** ** Tree Renderer *)

(** The four prefixes, as the bytes of their UTF-8 text: four spaces, a
    vertical bar and three spaces, a tee and two dashes and a space, a
    corner and two dashes and a space. *)
Definition box (c : ascii) : string :=
  String "226"%char (String "148"%char (String c EmptyString)).

Definition space : string := "    ".
Definition branch : string := box "130"%char ++ "   ".
Definition tee : string := box "156"%char ++ box "128"%char ++ box "128"%char ++ " ".
Definition last : string := box "148"%char ++ box "128"%char ++ box "128"%char ++ " ".

(** What [iterdir] and [is_dir] show of a directory tree: each entry with
    its [name], the text [str(path)] of its path, and for a directory its
    entries in [iterdir] order. *)
#[warnings="-register-all"]
Inductive entry : Type :=
| File (name path : string)
| Dir (name path : string) (contents : list entry).

Definition is_dir (e : entry) : bool :=
  match e with Dir _ _ _ => true | File _ _ => false end.

Definition entry_name (e : entry) : string :=
  match e with Dir name _ _ => name | File name _ => name end.

Definition entry_path (e : entry) : string :=
  match e with Dir _ path _ => path | File _ path => path end.

(** What the generator [inner] does between two resumptions, in program
    order: a line printed by [should_ignore], a [yield], and the increment
    of a counter that follows a [yield]. *)
Inductive action : Type :=
| Say (msg : string)
| Yield (line : string)
| CountDir
| CountFile.

(** The counters shared with the generator, and the console. *)
Record tally : Type :=
  mk_tally { shown : list string; directories : nat; files : nat }.

(** [next(iterator)]: the generator runs on from where it stopped, up to
    its next [yield], or to its end. *)
Fixpoint resume (acts : list action) (t : tally)
  : option string * list action * tally :=
  match acts with
  | [] => (None, [], t)
  | Say msg :: rest =>
      resume rest (mk_tally (shown t ++ [msg]) (directories t) (files t))
  | Yield line :: rest => (Some line, rest, t)
  | CountDir :: rest =>
      resume rest (mk_tally (shown t) (S (directories t)) (files t))
  | CountFile :: rest =>
      resume rest (mk_tally (shown t) (directories t) (S (files t)))
  end.

(** [for line in islice(iterator, n): print(line)] *)
Fixpoint print_islice (n : nat) (acts : list action) (t : tally)
  : list action * tally :=
  match n with
  | O => (acts, t)
  | S n' =>
      match resume acts t with
      | (Some line, rest, t') =>
          print_islice n' rest
            (mk_tally (shown t' ++ [line]) (directories t') (files t'))
      | (None, rest, t') => (rest, t')
      end
  end.

Section TreeRenderer.

Variable fnmatch : string -> string -> bool.
(** The module-level [verbose] read by [should_ignore]. *)
Variable g_verbose : bool.

Variable limit_to_directories : bool.
Variable ignore_files : list string.

(** [colorize(path, is_dir)]: what [should_ignore] prints, and the name. *)
Definition colorize (path : entry) : list action * string :=
  let '(ignored, said) :=
    should_ignore fnmatch g_verbose (entry_path path) ignore_files in
  (map Say said,
   if ignored then ESC ++ "[90m" ++ entry_name path ++ ESC ++ "[0m"
   else entry_name path).

(** The entries the loop of [inner] goes over. *)
Definition listed (all : list entry) : list entry :=
  if limit_to_directories then filter is_dir all else all.

(** [[tee] * (len(contents) - 1) + [last]] *)
Definition pointers (contents : list entry) : list string :=
  (repeat tee (List.length contents - 1) ++ [last])%list.

(** The generator [inner(dir_path, prefix, level)].  The loop takes the
    entries of [dir_path] one by one, passing over those the comprehension
    leaves out, together with the pointers. *)
Fixpoint inner (dir_path : entry) (prefix : string) (level : Z) {struct dir_path}
  : list action :=
  if level =? 0 then []
  else
    match dir_path with
    | File _ _ => []
    | Dir _ _ all =>
        (fix each (l : list entry) (ps : list string) {struct l} : list action :=
           match l with
           | [] => []
           | path :: l' =>
               if limit_to_directories && negb (is_dir path) then each l' ps
               else
                 match ps with
                 | [] => []
                 | pointer :: ps' =>
                     (if is_dir path
                      then
                        let '(said, name) := colorize path in
                        said ++ [Yield (prefix ++ pointer ++ name); CountDir]
                        ++ (let extension :=
                              if String.eqb pointer tee then branch else space in
                            inner path (prefix ++ extension) (level - 1))
                      else if negb limit_to_directories
                      then
                        let '(said, name) := colorize path in
                        said ++ [Yield (prefix ++ pointer ++ name); CountFile]
                      else [])
                     ++ each l' ps'
                 end
           end)%list all (pointers (listed all))
    end.

(** The last line printed. *)
Definition summary (directories files : nat) : string :=
  nl ++ str_of_nat directories ++ " directories"
  ++ (match files with
      | O => EmptyString
      | _ => ", " ++ str_of_nat files ++ " files"
      end).

(** [tree(dir_path, level, limit_to_directories, length_limit,
    ignore_files)] on a directory whose entries can all be listed: the
    lines printed.  A [dir_path] that is not a directory makes [iterdir]
    raise at the first resumption unless [level] is 0. *)
Definition tree_of (dir_path : entry) (level : Z) (length_limit : nat)
  : list string * outcome unit :=
  let t0 := mk_tally [entry_name dir_path] 0 0 in
  if negb (is_dir dir_path) && negb (level =? 0)
  then (shown t0, Raised (OSError (entry_path dir_path)))
  else
    let '(rest, t1) := print_islice length_limit (inner dir_path "" level) t0 in
    let '(more, _, t2) := resume rest t1 in
    let t3 :=
      match more with
      | Some line =>
          if negb (String.eqb line EmptyString)
          then mk_tally
                 (shown t2 ++ ["... length_limit, " ++ str_of_nat length_limit
                               ++ ", reached, counted:"])
                 (directories t2) (files t2)
          else t2
      | None => t2
      end in
    ((shown t3 ++ [summary (directories t3) (files t3)])%list, Returned tt).

End TreeRenderer.

(** The call made by the script for [-l], at a time when the module-level
    [verbose] is still [False]; [scan] gives the tree found at a path. *)
Definition tree_listing (fnmatch : string -> string -> bool)
    (scan : string -> entry) (repo_path : string) (ignore_list : list string)
  : list string * outcome unit :=
  tree_of fnmatch false false ignore_list (scan repo_path) 3 1000.

(** ** A small repository for running the definitions *)

Module Demo.

Definition path_join (a b : string) : string := a ++ "/" ++ b.

Definition relpath (p start : string) : string :=
  if startswith (start ++ "/") p
  then String.substring (String.length start + 1)
         (String.length p - String.length start - 1) p
  else p.

Definition stat_size (p : string) : option Z :=
  if String.eqb p "repo/a.txt" then Some 5
  else if String.eqb p "repo/b.txt" then Some 6
  else if String.eqb p "repo/big.bin" then Some 2000000
  else if String.eqb p "repo/src/m.py" then Some 8
  else if String.eqb p "repo/.gptignore" then Some 6
  else None.

Definition read_text (p : string) : option string :=
  if String.eqb p "repo/a.txt" then Some "hello"
  else if String.eqb p "repo/b.txt" then Some "secret"
  else if String.eqb p "repo/big.bin" then Some "0000"
  else if String.eqb p "repo/src/m.py" then Some ("import x" ++ nl)
  else if String.eqb p "repo/.gptignore" then Some ("b.txt" ++ nl)
  else if String.eqb p "pre.txt" then Some "Files:"
  else None.

Definition os_walk (p : string) : list (string * list string) :=
  if String.eqb p "repo"
  then [("repo", ["a.txt"; "b.txt"; "big.bin"]); ("repo/src", ["m.py"])]
  else [].

Definition tree (p : string) (ignore_list : list string)
  : list string * outcome unit := ([p], Returned tt).

(** The script on this repository, on a platform other than win32. *)
Definition run (argv : list string) : M host unit :=
  main fnmatch_wild path_join relpath stat_size read_text os_walk
    false "/opt/loader" tree String.eqb (fun _ => EmptyString) argv.

Definition output_text : string :=
  "intro" ++ nl ++ "----" ++ nl ++ "a.txt" ++ nl ++ "hello" ++ nl ++ "--END--".

End Demo.

(** ** Vocabulary of the statements *)

(** A blank entry or a comment entry of a pattern list. *)
Definition blank_or_comment (pattern : string) : bool :=
  String.eqb pattern EmptyString || startswith "#" pattern.

(** [l'] is [l] with blank and comment entries inserted or removed. *)
Inductive inert_edit : list string -> list string -> Prop :=
| inert_done : inert_edit [] []
| inert_keep p l l' : inert_edit l l' -> inert_edit (p :: l) (p :: l')
| inert_insert p l l' :
    blank_or_comment p = true -> inert_edit l l' -> inert_edit l (p :: l')
| inert_remove p l l' :
    blank_or_comment p = true -> inert_edit l l' -> inert_edit (p :: l) l'.

(** A line made of white space only. *)
Fixpoint all_space (s : string) : bool :=
  match s with
  | EmptyString => true
  | String c s' => isspace c && all_space s'
  end.

(** The lines right before [d] are [pre], and [d] and the line [p] after it
    are put into the same chunk. *)
Definition same_chunk (lines pre : list string) (d p : string) : Prop :=
  exists (gs1 gs2 : list (list string)) (a b : list string),
    split_groups lines = (gs1 ++ (a ++ d :: p :: b) :: gs2)%list
    /\ (List.concat gs1 ++ a)%list = pre.

(** A chunk that starts at a line beginning with four hyphens. *)
Definition starts_at_delimiter (g : list string) : Prop :=
  exists d r, g = d :: r /\ startswith "----" d = true.

(** The grouping loop and the loop of the script run in step. *)
Definition renders (g : grouper) (s : splitter) : Prop :=
  chunks s = map join (groups g)
  /\ chunk s = join (group g)
  /\ chunk_size s = group_size g.

(** What the grouping loop keeps true. *)
Record grouped (g : grouper) : Prop := {
  grouped_size : group_size g = len (join (group g));
  grouped_large : Forall (fun gr => SPLIT_SIZE < len (join gr)) (groups g);
  grouped_heads : Forall starts_at_delimiter (tl (groups g ++ [group g]))
}.

(** A content line of [n] characters and its newline, none of them a
    hyphen. *)
Definition filler (n : Z) : string := repeat_char "x" (Z.to_nat n) ++ nl.

(** An output file of two Records, [a.txt] with a content line of [n1]
    characters and [b.txt] with one of [n2]. *)
Definition two_records (n1 n2 : Z) : string :=
  ("----" ++ nl) ++ ("a.txt" ++ nl) ++ filler n1
  ++ ("----" ++ nl) ++ ("b.txt" ++ nl) ++ filler n2 ++ "--END--".

(** The same with the second file named [----x]. *)
Definition hyphen_named (n : Z) : string :=
  ("----" ++ nl) ++ ("a.txt" ++ nl) ++ filler n
  ++ ("----" ++ nl) ++ ("----x" ++ nl) ++ ("body" ++ nl) ++ "--END--".

Fixpoint no_newline (s : string) : bool :=
  match s with
  | EmptyString => true
  | String c s' => negb (Ascii.eqb c LF) && no_newline s'
  end.

(** The character [c] occurs in [s]. *)
Fixpoint occurs (c : ascii) (s : string) : bool :=
  match s with
  | EmptyString => false
  | String d s' => Ascii.eqb d c || occurs c s'
  end.

(** The line printed for a path ignored because of [pattern]. *)
Definition ignoring (file_path pattern : string) : string :=
  "ignoring " ++ file_path ++ " because it matches " ++ pattern.

(** The line printed for chunk [i]. *)
Definition chunk_notice (file_path : string) (i : nat) : string :=
  "Chunk " ++ str_of_nat i ++ " written to " ++ chunk_name file_path i.



(** The lines a list of actions yields, each with [true] when the counter
    of directories follows it and [false] when the counter of files does. *)
Fixpoint entries_of (acts : list action) : list (string * bool) :=
  match acts with
  | [] => []
  | Yield line :: CountDir :: rest => (line, true) :: entries_of rest
  | Yield line :: CountFile :: rest => (line, false) :: entries_of rest
  | _ :: rest => entries_of rest
  end.

(** Actions in which every [yield] is of a non-empty line and is followed
    by one increment, with lines of [should_ignore] in between only when
    [loud]. *)
Inductive paced (loud : bool) : list action -> Prop :=
| paced_end : paced loud []
| paced_say msg acts :
    loud = true -> paced loud acts -> paced loud (Say msg :: acts)
| paced_dir line acts :
    line <> "" -> paced loud acts -> paced loud (Yield line :: CountDir :: acts)
| paced_file line acts :
    line <> "" -> paced loud acts -> paced loud (Yield line :: CountFile :: acts).

(** The two steps of [tree] on the generator: the [islice] loop, then the
    [next] of the truncation test. *)
Definition listing_run (n : nat) (acts : list action) (t : tally)
  : option string * list action * tally :=
  let '(rest, t1) := print_islice n acts t in resume rest t1.

Definition count_dirs (es : list (string * bool)) : nat :=
  List.length (filter (fun e => snd e) es).

Definition count_files (es : list (string * bool)) : nat :=
  List.length (filter (fun e => negb (snd e)) es).

(** The line printed when the listing is cut. *)
Definition cut_notice (length_limit : nat) : string :=
  "... length_limit, " ++ str_of_nat length_limit ++ ", reached, counted:".

(** The loop of [inner] over the entries of a directory, with the
    generator for the directories met as a parameter. *)
Definition inner_loop (fnmatch : string -> string -> bool) (g_verbose : bool)
    (limit_to_directories : bool) (ignore_files : list string)
    (rec : entry -> string -> Z -> list action) (prefix : string) (level : Z)
  : list entry -> list string -> list action :=
  fix each (l : list entry) (ps : list string) {struct l} : list action :=
    match l with
    | [] => []
    | path :: l' =>
        if limit_to_directories && negb (is_dir path) then each l' ps
        else
          match ps with
          | [] => []
          | pointer :: ps' =>
              ((if is_dir path
                then
                  let '(said, name) :=
                    colorize fnmatch g_verbose ignore_files path in
                  said ++ [Yield (prefix ++ pointer ++ name); CountDir]
                  ++ (let extension :=
                        if String.eqb pointer tee then branch else space in
                      rec path (prefix ++ extension)%string (level - 1)%Z)
                else if negb limit_to_directories
                then
                  let '(said, name) :=
                    colorize fnmatch g_verbose ignore_files path in
                  said ++ [Yield (prefix ++ pointer ++ name); CountFile]
                else [])
               ++ each l' ps')%list
          end
    end.

(** The entries below a directory down to a depth, a directory before its
    own entries. *)
Fixpoint within (depth : nat) (e : entry) : list entry :=
  match depth with
  | O => []
  | S d =>
      match e with
      | File _ _ => []
      | Dir _ _ all => flat_map (fun c => c :: within d c) all
      end
  end.

(** All the entries below a directory. *)
Fixpoint below (e : entry) : list entry :=
  match e with
  | File _ _ => []
  | Dir _ _ all => flat_map (fun c => c :: below c) all
  end.

(** A sample tree. *)
Definition sample_tree : entry :=
  Dir "repo" "repo"
    [File "a.txt" "repo/a.txt";
     Dir "src" "repo/src"
       [File "m.py" "repo/src/m.py";
        Dir "deep" "repo/src/deep" [File "x" "repo/src/deep/x"]];
     File "b.txt" "repo/b.txt"].

(** The line [le] of the generator is the line of the entry [e]: it ends
    with the name of [e] as [colorize] gives it, and is counted as a
    directory exactly when [e] is one. *)
Definition shows (fnmatch : string -> string -> bool) (g_verbose : bool)
    (ignore_files : list string) (le : string * bool) (e : entry) : Prop :=
  snd le = is_dir e
  /\ exists before,
       fst le = before ++ snd (colorize fnmatch g_verbose ignore_files e).

(** The entries listed for a [level]: down to that depth, or all of them
    for a negative [level]. *)
Definition reached (level : Z) (e : entry) : list entry :=
  if level <? 0 then below e else within (Z.to_nat level) e.

(** A line with its newline, and a last line without one. *)
Definition complete_line (l : string) : Prop :=
  exists a, no_newline a = true /\ l = a ++ nl.

Definition open_line (l : string) : Prop :=
  no_newline l = true /\ l <> "".

(** Lines as the iteration over a text gives them. *)
Inductive proper : list string -> Prop :=
| proper_nil : proper []
| proper_open l : open_line l -> proper [l]
| proper_cons l ls : complete_line l -> proper ls -> proper (l :: ls).

(** Lines that the loop of the splitter keeps in one buffer. *)
Definition settled (g : list string) : Prop :=
  fold_left group_step g (mk_grouper [] [] 0)
  = mk_grouper [] g (len (join g)).

(** The number of lines that begin with four hyphens. *)
Definition delimiter_lines (lines : list string) : nat :=
  List.length (filter (startswith "----") lines).

(** ** A repository whose listing, sizes and texts agree *)

Module Sample.

Definition stat_size (p : string) : option Z :=
  if String.eqb p "repo/.gptignore" then Some 17
  else if String.eqb p "repo/a.txt" then Some 5
  else if String.eqb p "repo/b.txt" then Some 6
  else if String.eqb p "repo/locked.txt" then Some 3
  else if String.eqb p "repo/src/m.py" then Some 9
  else if String.eqb p "pre.txt" then Some 6
  else None.

(** [repo/locked.txt] is there and cannot be opened. *)
Definition read_text (p : string) : option string :=
  if String.eqb p "repo/.gptignore"
  then Some ("b.txt" ++ nl ++ "locked.txt" ++ nl)
  else if String.eqb p "repo/a.txt" then Some "hello"
  else if String.eqb p "repo/b.txt" then Some "secret"
  else if String.eqb p "repo/src/m.py" then Some ("import x" ++ nl)
  else if String.eqb p "pre.txt" then Some "Files:"
  else None.

Definition os_walk (p : string) : list (string * list string) :=
  if String.eqb p "repo"
  then [("repo", [".gptignore"; "a.txt"; "b.txt"; "locked.txt"]);
        ("repo/src", ["m.py"])]
  else [].

Definition scan (p : string) : entry :=
  Dir "repo" "repo"
    [File ".gptignore" "repo/.gptignore"; File "a.txt" "repo/a.txt";
     File "b.txt" "repo/b.txt"; File "locked.txt" "repo/locked.txt";
     Dir "src" "repo/src" [File "m.py" "repo/src/m.py"]].

(** The script on this repository, run from the directory that holds
    [repo], on a platform other than win32, with an output small enough to
    stay in the buffer until the file is closed. *)
Definition run (argv : list string) : M host unit :=
  main fnmatch_wild Demo.path_join Demo.relpath stat_size read_text os_walk
    false "/opt/loader" (tree_listing fnmatch_wild scan)
    String.eqb (fun _ => EmptyString) argv.

End Sample.

(** * Properties *)

(** ** Strings *)

Lemma append_empty_r (s : string) : s ++ "" = s.
Proof. induction s as [|c s IH]; simpl; congruence. Qed.

Lemma append_assoc (a b c : string) : (a ++ b) ++ c = a ++ b ++ c.
Proof. induction a as [|x a IH]; simpl; congruence. Qed.

Lemma length_append (a b : string) :
  String.length (a ++ b) = (String.length a + String.length b)%nat.
Proof. induction a as [|x a IH]; simpl; congruence. Qed.

Lemma len_append (a b : string) : len (a ++ b) = len a + len b.
Proof. unfold len. rewrite length_append. lia. Qed.

Lemma len_nonneg (s : string) : 0 <= len s.
Proof. unfold len. lia. Qed.

Lemma startswith_spec (p s : string) :
  startswith p s = true <-> exists b, s = p ++ b.
Proof.
  revert s. induction p as [|c p IH]; intros s; simpl.
  - split; [intros _; now exists s | reflexivity].
  - destruct s as [|d s].
    + split; [discriminate | intros [b Hb]; discriminate].
    + rewrite andb_true_iff, Ascii.eqb_eq, IH. split.
      * intros [-> [b ->]]. now exists b.
      * intros [b Hb]. injection Hb as -> ->. split; [reflexivity | now exists b].
Qed.

Lemma contains_spec (p s : string) :
  contains p s = true <-> Substring p s.
Proof.
  unfold Substring. induction s as [|c s IH]; cbn [contains].
  - rewrite orb_false_r, startswith_spec. split.
    + intros [b Hb]. now exists "", b.
    + intros [a [b Hab]]. destruct a; simpl in Hab.
      * now exists b.
      * discriminate.
  - rewrite orb_true_iff, IH, startswith_spec. split.
    + intros [[b Hb] | [a [b Hab]]].
      * now exists "", b.
      * exists (String c a), b. simpl. now rewrite Hab.
    + intros [a [b Hab]]. destruct a as [|x a]; simpl in Hab.
      * left. now exists b.
      * right. exists a, b. congruence.
Qed.

Lemma join_lines_of (s : string) : join (lines_of s) = s.
Proof.
  unfold join. induction s as [|c s IH]; simpl; [reflexivity|].
  destruct (Ascii.eqb c LF).
  - simpl. destruct (lines_of s); simpl in *; congruence.
  - destruct (lines_of s) as [|l ls]; simpl in *; [congruence|].
    destruct ls; simpl in *; congruence.
Qed.

(** ** Ignore Matcher *)

Lemma effective_blank_or_comment (p : string) :
  effective p = negb (blank_or_comment p).
Proof. unfold effective, blank_or_comment. now rewrite negb_orb. Qed.

Lemma effective_spec (p : string) :
  effective p = true <-> p <> "" /\ startswith "#" p = false.
Proof.
  unfold effective. rewrite andb_true_iff, !negb_true_iff, String.eqb_neq.
  tauto.
Qed.

Lemma hits_spec fnmatch (x p : string) :
  hits fnmatch x p = true <->
  Substring p x \/ p = x \/ fnmatch x p = true.
Proof.
  unfold hits. rewrite !orb_true_iff, contains_spec, String.eqb_eq. tauto.
Qed.

Lemma first_hit_true fnmatch verbose (x : string) (l : list string) :
  fst (first_hit fnmatch verbose x l) = true <->
  exists p, In p l /\ hits fnmatch x p = true.
Proof.
  induction l as [|q l IH]; simpl.
  - split; [discriminate | intros [p [[] _]]].
  - destruct (hits fnmatch x q) eqn:Hq; simpl.
    + split; [intros _; exists q; auto | reflexivity].
    + rewrite IH. split.
      * intros [p [Hp Hh]]. exists p; auto.
      * intros [p [[->|Hp] Hh]]; [congruence | exists p; auto].
Qed.

Lemma should_ignore_true fnmatch verbose (x : string) (l : list string) :
  fst (should_ignore fnmatch verbose x l) = true <->
  exists p, In p l /\ effective p = true /\ hits fnmatch x p = true.
Proof.
  unfold should_ignore. rewrite first_hit_true. split.
  - intros [p [Hp Hh]]. apply filter_In in Hp. exists p; tauto.
  - intros [p [Hp [He Hh]]]. exists p. rewrite filter_In. tauto.
Qed.

(** C1, as stated: a pattern that is a non-empty fragment of the path is
    said to make the path ignored.  A comment entry is such a fragment here
    and the path is not ignored. *)
Lemma comment_fragment_not_ignored :
  In "#tmp" ["#tmp"] /\ "#tmp" <> "" /\ Substring "#tmp" "src/#tmp/a.py" /\
  forall fnmatch verbose,
    fst (should_ignore fnmatch verbose "src/#tmp/a.py" ["#tmp"]) = false.
Proof.
  repeat split.
  - now left.
  - discriminate.
  - now exists "src/", "/a.py".
Qed.

(** C1 (amended): [should_ignore] answers "ignored" exactly when some entry
    of the list that is non-empty and does not start with [#] is a fragment
    of the path, equals it, or glob-matches it.  So a non-empty, non-comment
    entry that is a fragment of the path makes it ignored, and a path that
    no entry matches is not ignored. *)
Theorem should_ignore_iff :
  forall (fnmatch : string -> string -> bool) (verbose : bool)
         (L : list string) (X : string),
    (fst (should_ignore fnmatch verbose X L) = true <->
     exists P, In P L /\ P <> "" /\ startswith "#" P = false /\
               (Substring P X \/ P = X \/ fnmatch X P = true))
    /\ (forall P, In P L -> P <> "" -> startswith "#" P = false ->
                  Substring P X ->
                  fst (should_ignore fnmatch verbose X L) = true)
    /\ ((forall P, In P L ->
                   ~ Substring P X /\ P <> X /\ fnmatch X P = false) ->
        fst (should_ignore fnmatch verbose X L) = false).
Proof.
  intros fnmatch verbose L X.
  assert (Hiff : fst (should_ignore fnmatch verbose X L) = true <->
     exists P, In P L /\ P <> "" /\ startswith "#" P = false /\
               (Substring P X \/ P = X \/ fnmatch X P = true)).
  { rewrite should_ignore_true. split.
    - intros [P [HP [He Hh]]]. exists P.
      apply effective_spec in He. apply hits_spec in Hh. tauto.
    - intros [P [HP [Hne [Hc Hh]]]]. exists P.
      rewrite effective_spec, hits_spec. tauto. }
  split; [exact Hiff | split].
  - intros P HP Hne Hc Hsub. apply Hiff. exists P. tauto.
  - intros Hnone. apply not_true_is_false. intros Ht.
    apply Hiff in Ht. destruct Ht as [P [HP [_ [_ Hm]]]].
    destruct (Hnone P HP) as [H1 [H2 H3]].
    destruct Hm as [Hm | [Hm | Hm]]; [tauto | tauto | congruence].
Qed.

Lemma should_ignore_iff_witness :
  fst (should_ignore fnmatch_wild false "src/build_utils.py"
         ["# artefacts"; ""; "build"]) = true
  /\ fst (should_ignore fnmatch_wild false "a.txt" ["b.txt"]) = false.
Proof.
  split.
  - apply (proj1 (proj2 (should_ignore_iff fnmatch_wild false
             ["# artefacts"; ""; "build"] "src/build_utils.py")) "build").
    + simpl; tauto.
    + discriminate.
    + reflexivity.
    + now exists "src/", "_utils.py".
  - apply (proj2 (proj2 (should_ignore_iff fnmatch_wild false
             ["b.txt"] "a.txt"))).
    intros P [<- | []]. repeat split.
    + rewrite <- contains_spec. simpl. discriminate.
    + discriminate.
Defined.

(** ** Blank and comment entries *)

Lemma inert_edit_filter (L L' : list string) :
  inert_edit L L' -> filter effective L = filter effective L'.
Proof.
  induction 1 as [|p l l' _ IH|p l l' Hp _ IH|p l l' Hp _ IH]; simpl.
  - reflexivity.
  - now rewrite IH.
  - now rewrite effective_blank_or_comment, Hp.
  - now rewrite effective_blank_or_comment, Hp.
Qed.

Lemma isspace_not_slash (c : ascii) :
  isspace c = true -> Ascii.eqb c "/" = false.
Proof.
  intros H. destruct (Ascii.eqb_spec c "/") as [->|]; [discriminate H | reflexivity].
Qed.

Lemma all_space_replace (s : string) :
  all_space s = true -> replace_char "/" "\" s = s.
Proof.
  induction s as [|c s IH]; simpl; [reflexivity|].
  rewrite andb_true_iff. intros [Hc Hs].
  now rewrite (isspace_not_slash c Hc), IH.
Qed.

Lemma all_space_strip (s : string) : all_space s = true -> strip s = "".
Proof.
  unfold strip. induction s as [|c s IH]; simpl; [reflexivity|].
  rewrite andb_true_iff. intros [Hc Hs]. rewrite Hc. auto.
Qed.

(** C8: entries that are blank or start with [#] do not change the answer
    (nor what is printed): two lists that differ by such entries give the
    same result on every path.  The loader keeps one entry per line of the
    file, a blank line as the empty entry, so these entries are dropped by
    the matcher only. *)
Theorem blank_and_comment_entries_inert :
  forall (fnmatch : string -> string -> bool) (verbose win32 : bool)
         (L L' : list string) (X text : string),
    inert_edit L L' ->
    should_ignore fnmatch verbose X L = should_ignore fnmatch verbose X L'
    /\ List.length (get_ignore_list win32 text) = List.length (lines_of text)
    /\ (forall line, In line (lines_of text) ->
          In (strip (if win32 then replace_char "/" "\" line else line))
             (get_ignore_list win32 text))
    /\ (forall line, In line (lines_of text) -> all_space line = true ->
          In "" (get_ignore_list win32 text)).
Proof.
  intros fnmatch verbose win32 L L' X text HLL'. repeat split.
  - unfold should_ignore. now rewrite (inert_edit_filter L L' HLL').
  - unfold get_ignore_list. apply length_map.
  - intros line Hline. unfold get_ignore_list.
    apply (in_map (fun l => strip (if win32 then replace_char "/" "\" l else l))).
    exact Hline.
  - intros line Hline Hsp. unfold get_ignore_list. apply in_map_iff.
    exists line. split; [|exact Hline].
    destruct win32.
    + rewrite (all_space_replace line Hsp). now apply all_space_strip.
    + now apply all_space_strip.
Qed.

Lemma blank_and_comment_entries_inert_witness :
  inert_edit ["build"; "*.log"] ["# outputs"; "build"; ""; "*.log"]
  /\ should_ignore fnmatch_wild true "run.log" ["build"; "*.log"]
     = should_ignore fnmatch_wild true "run.log"
         ["# outputs"; "build"; ""; "*.log"].
Proof.
  assert (H : inert_edit ["build"; "*.log"] ["# outputs"; "build"; ""; "*.log"]).
  { apply inert_insert; [reflexivity|]. apply inert_keep.
    apply inert_insert; [reflexivity|]. apply inert_keep. apply inert_done. }
  split; [exact H|].
  exact (proj1 (blank_and_comment_entries_inert fnmatch_wild true false
                  ["build"; "*.log"] ["# outputs"; "build"; ""; "*.log"]
                  "run.log" "" H)).
Defined.

Example get_ignore_list_keeps_lines :
  get_ignore_list false
    ("# outputs" ++ nl ++ "build/" ++ nl ++ nl ++ "  *.log  " ++ nl)
  = ["# outputs"; "build/"; ""; "*.log"].
Proof. reflexivity. Qed.

Example get_ignore_list_win32 :
  get_ignore_list true ("build/out" ++ nl) = ["build\out"].
Proof. reflexivity. Qed.

Example should_ignore_fragment :
  should_ignore fnmatch_wild false "src/build_utils.py" ["# artefacts"; ""; "build"]
  = (true, []).
Proof. reflexivity. Qed.

Example should_ignore_glob :
  should_ignore fnmatch_wild true "run.log" ["*.log"]
  = (true, ["ignoring run.log because it matches *.log"]).
Proof. reflexivity. Qed.

Example should_ignore_none :
  should_ignore fnmatch_wild true "a.txt" ["b.txt"; "#a.txt"; ""] = (false, []).
Proof. reflexivity. Qed.

(** ** Repository Concatenator *)

Section ConcatenatorFacts.

Variable fnmatch : string -> string -> bool.
Variable g_verbose : bool.
Variable path_join : string -> string -> string.
Variable relpath : string -> string -> string.
Variable stat_size : string -> option Z.
Variable read_text : string -> option string.
Variable os_walk : string -> list (string * list string).

Variable repo_path : string.
Variable ignore_list : list string.
Variable verbose exclude_large_files : bool.

Local Abbreviation run_file :=
  (process_file fnmatch g_verbose path_join relpath stat_size read_text
     repo_path ignore_list verbose exclude_large_files).
Local Abbreviation run_files :=
  (process_files fnmatch g_verbose path_join relpath stat_size read_text
     repo_path ignore_list verbose exclude_large_files).
Local Abbreviation is_included :=
  (included fnmatch g_verbose path_join relpath stat_size
     repo_path ignore_list exclude_large_files).
Local Abbreviation emits :=
  (emitted fnmatch g_verbose path_join relpath stat_size read_text
     repo_path ignore_list exclude_large_files).
Local Abbreviation rel := (rel_of path_join relpath repo_path).

(** One iteration: the sink grows by the file's Record when the file is
    included and can be read, and is left alone otherwise. *)
Lemma process_file_sink (f : string * string) (w : io) :
  if is_included f
  then match read_text (path_join (fst f) (snd f)) with
       | Some contents =>
           sink (fst (run_file (fst f) (snd f) w))
           = sink w ++ record_text (rel f) contents
           /\ snd (run_file (fst f) (snd f) w) = Returned tt
       | None =>
           sink (fst (run_file (fst f) (snd f) w)) = sink w
           /\ snd (run_file (fst f) (snd f) w)
              = Raised (OSError (path_join (fst f) (snd f)))
       end
  else sink (fst (run_file (fst f) (snd f) w)) = sink w
       /\ snd (run_file (fst f) (snd f) w) = Returned tt.
Proof.
  unfold process_file, included, rel_of.
  destruct (exclude_large_files && path_exists stat_size (path_join (fst f) (snd f))
            && too_large stat_size (path_join (fst f) (snd f))) eqn:Hbig; simpl.
  - destruct verbose; simpl; auto.
  - destruct (should_ignore fnmatch g_verbose
                (relpath (path_join (fst f) (snd f)) repo_path) ignore_list)
      as [ignored said] eqn:Hign.
    simpl. destruct ignored; simpl.
    + unfold bind, prints. simpl. destruct verbose; simpl; auto.
    + unfold bind, prints, read_file. simpl.
      destruct (read_text (path_join (fst f) (snd f))) as [contents|]; simpl.
      * unfold record_text. rewrite !append_assoc.
        destruct verbose; simpl; auto.
      * auto.
Qed.

Lemma process_files_emitted (fs : list (string * string)) (w : io) :
  sink (fst (run_files fs w)) = sink w ++ fst (emits fs)
  /\ snd (run_files fs w) = snd (emits fs).
Proof.
  revert w. induction fs as [|f fs IH]; intros w.
  - simpl. now rewrite append_empty_r.
  - pose proof (process_file_sink f w) as Hf.
    unfold process_files in *. cbn [for_each emitted]. unfold bind.
    destruct (run_file (fst f) (snd f) w) as [w' o].
    cbn [fst snd] in Hf.
    destruct (is_included f).
    + destruct (read_text (path_join (fst f) (snd f))) as [contents|].
      * destruct Hf as [Hs ->].
        destruct (IH w') as [IH1 IH2].
        destruct (emits fs) as [s o'].
        cbn [fst snd] in *. rewrite IH1, IH2, Hs, append_assoc. auto.
      * destruct Hf as [Hs ->]. cbn [fst snd]. now rewrite append_empty_r.
    + destruct Hf as [Hs ->]. destruct (IH w') as [IH1 IH2].
      rewrite IH1, IH2, Hs. auto.
Qed.

Lemma for_each_app {S A} (a b : list A) (body : A -> M S unit) (w : S) :
  for_each (a ++ b) body w = (for_each a body ;; for_each b body) w.
Proof.
  revert w. induction a as [|x a IH]; intros w; simpl.
  - reflexivity.
  - unfold bind in *. destruct (body x w) as [w' [[]|e]]; [apply IH | reflexivity].
Qed.

Lemma for_each_map {S A B} (g : A -> B) (l : list A) (body : B -> M S unit) (w : S) :
  for_each (map g l) body w = for_each l (fun x => body (g x)) w.
Proof.
  revert w. induction l as [|x l IH]; intros w; simpl; [reflexivity|].
  unfold bind. destruct (body (g x) w) as [w' [[]|e]]; [apply IH | reflexivity].
Qed.

(** The nested loops visit the files of the walk in order. *)
Lemma process_repository_walked (w : io) :
  process_repository fnmatch g_verbose path_join relpath stat_size read_text
    os_walk repo_path ignore_list verbose exclude_large_files w
  = run_files (walked os_walk repo_path) w.
Proof.
  unfold process_repository, process_files, walked.
  revert w. induction (os_walk repo_path) as [|[root files] dirs IH]; intros w.
  - reflexivity.
  - cbn [for_each flat_map]. rewrite for_each_app. unfold bind.
    rewrite for_each_map. cbn [fst snd].
    destruct (for_each files (run_file root) w) as [w' [[]|e]];
      [apply IH | reflexivity].
Qed.


Lemma emitted_without (pre post : list (string * string)) (f : string * string) :
  is_included f = false ->
  emits (pre ++ f :: post) = emits (pre ++ post).
Proof.
  intros Hf. induction pre as [|g pre IH]; cbn [app emitted].
  - now rewrite Hf.
  - now rewrite IH.
Qed.



End ConcatenatorFacts.



(** C7: with the skip-large-files flag set, a file whose size is above
    1,000,000 is not included whatever the ignore list is; its iteration
    leaves the sink as it was and returns, and a run over a list of files
    writes and ends as it does over the list without that file. *)
Theorem oversized_file_never_written :
  forall (fnmatch : string -> string -> bool) (g_verbose : bool)
         (path_join relpath : string -> string -> string)
         (stat_size : string -> option Z) (read_text : string -> option string)
         (repo_path : string) (ignore_list : list string) (verbose : bool)
         (root file : string) (size : Z)
         (pre post : list (string * string)) (w : io),
    stat_size (path_join root file) = Some size ->
    1000000 < size ->
    included fnmatch g_verbose path_join relpath stat_size repo_path
      ignore_list true (root, file) = false
    /\ sink (fst (process_file fnmatch g_verbose path_join relpath stat_size
                    read_text repo_path ignore_list verbose true root file w))
       = sink w
    /\ snd (process_file fnmatch g_verbose path_join relpath stat_size
              read_text repo_path ignore_list verbose true root file w)
       = Returned tt
    /\ sink (fst (process_files fnmatch g_verbose path_join relpath stat_size
                    read_text repo_path ignore_list verbose true
                    (pre ++ (root, file) :: post) w))
       = sink (fst (process_files fnmatch g_verbose path_join relpath
                      stat_size read_text repo_path ignore_list verbose true
                      (pre ++ post) w))
    /\ snd (process_files fnmatch g_verbose path_join relpath stat_size
              read_text repo_path ignore_list verbose true
              (pre ++ (root, file) :: post) w)
       = snd (process_files fnmatch g_verbose path_join relpath stat_size
                read_text repo_path ignore_list verbose true (pre ++ post) w).
Proof.
  intros fnmatch g_verbose path_join relpath stat_size read_text repo_path
         ignore_list verbose root file size pre post w Hstat Hsize.
  assert (Hinc : included fnmatch g_verbose path_join relpath stat_size
                   repo_path ignore_list true (root, file) = false).
  { unfold included, path_exists, too_large, LARGE_FILE_SIZE. cbn [fst snd].
    rewrite Hstat. replace (size >? 1000000) with true by (symmetry; lia).
    reflexivity. }
  pose proof (process_file_sink fnmatch g_verbose path_join relpath stat_size
                read_text repo_path ignore_list verbose true (root, file) w) as Hf.
  rewrite Hinc in Hf. cbn [fst snd] in Hf. destruct Hf as [Hs Ho].
  destruct (process_files_emitted fnmatch g_verbose path_join relpath stat_size
              read_text repo_path ignore_list verbose true
              (pre ++ (root, file) :: post) w) as [H1 H2].
  destruct (process_files_emitted fnmatch g_verbose path_join relpath stat_size
              read_text repo_path ignore_list verbose true
              (pre ++ post) w) as [H3 H4].
  rewrite H1, H2, H3, H4.
  rewrite (emitted_without fnmatch g_verbose path_join relpath stat_size
             read_text repo_path ignore_list true pre post (root, file) Hinc).
  auto.
Qed.

Lemma oversized_file_never_written_witness :
  Demo.stat_size (Demo.path_join "repo" "big.bin") = Some 2000000
  /\ (forall ignore_list,
        included fnmatch_wild false Demo.path_join Demo.relpath Demo.stat_size
          "repo" ignore_list true ("repo", "big.bin") = false).
Proof.
  split; [reflexivity|]. intros ignore_list.
  exact (proj1 (oversized_file_never_written fnmatch_wild false Demo.path_join
                  Demo.relpath Demo.stat_size Demo.read_text "repo" ignore_list
                  false "repo" "big.bin" 2000000 [] [] (mk_io "" [])
                  eq_refl eq_refl)).
Defined.

Example process_repository_scenario :
  process_repository fnmatch_wild true Demo.path_join Demo.relpath
    Demo.stat_size Demo.read_text Demo.os_walk "repo" ["b.txt"] true true
    (mk_io "" [])
  = (mk_io ("----" ++ nl ++ "a.txt" ++ nl ++ "hello" ++ nl
            ++ "----" ++ nl ++ "src/m.py" ++ nl ++ "import x" ++ nl ++ nl)
       ["a.txt";
        "ignoring b.txt because it matches b.txt";
        ESC ++ "[90mb.txt" ++ ESC ++ "[0m";
        ESC ++ "[90mbig.bin (excluded because it is too large)" ++ ESC ++ "[0m";
        "src/m.py"],
     Returned tt).
Proof. reflexivity. Qed.

Example process_repository_keeps_large_without_flag :
  sink (fst (process_repository fnmatch_wild false Demo.path_join Demo.relpath
               Demo.stat_size Demo.read_text Demo.os_walk "repo" ["b.txt"; "src"]
               false false (mk_io "" [])))
  = "----" ++ nl ++ "a.txt" ++ nl ++ "hello" ++ nl
    ++ "----" ++ nl ++ "big.bin" ++ nl ++ "0000" ++ nl.
Proof. reflexivity. Qed.

(** ** Output Splitter *)

Lemma join_cons (x : string) (l : list string) : join (x :: l) = x ++ join l.
Proof.
  unfold join. destruct l; simpl; [now rewrite append_empty_r | reflexivity].
Qed.

Lemma join_app (a b : list string) : join (a ++ b) = join a ++ join b.
Proof.
  induction a as [|x a IH]; [reflexivity|].
  cbn [app]. now rewrite !join_cons, IH, append_assoc.
Qed.

Lemma join_concat (gs : list (list string)) :
  join (map join gs) = join (List.concat gs).
Proof.
  induction gs as [|g gs IH]; [reflexivity|].
  cbn [map List.concat]. now rewrite join_cons, join_app, IH.
Qed.

Lemma startswith_append (p s t : string) :
  startswith p s = true -> startswith p (s ++ t) = true.
Proof.
  rewrite !startswith_spec. intros [b ->]. exists (b ++ t).
  now rewrite append_assoc.
Qed.

Lemma renders_step (g : grouper) (s : splitter) (line : string) :
  renders g s -> renders (group_step g line) (split_step s line).
Proof.
  intros [Hc [Hk Hs]]. unfold renders, group_step, split_step.
  destruct (startswith (repeat_char "-" 4) line).
  - rewrite Hs. destruct (group_size g >? SPLIT_SIZE); cbn [chunks chunk chunk_size groups group group_size].
    + rewrite Hc, Hk, map_app, join_app. cbn [map]. rewrite join_cons.
      now rewrite append_empty_r.
    + rewrite Hc, Hk, Hs, join_app, join_cons, append_empty_r. auto.
  - cbn [chunks chunk chunk_size groups group group_size].
    rewrite Hc, Hk, Hs, join_app, join_cons, append_empty_r. auto.
Qed.

Lemma renders_fold (lines : list string) (g : grouper) (s : splitter) :
  renders g s ->
  renders (fold_left group_step lines g) (fold_left split_step lines s).
Proof.
  revert g s. induction lines as [|l lines IH]; intros g s H; [exact H|].
  cbn [fold_left]. apply IH. now apply renders_step.
Qed.

Lemma split_chunks_groups (lines : list string) :
  split_chunks lines = map join (split_groups lines).
Proof.
  unfold split_chunks, split_groups.
  destruct (renders_fold lines (mk_grouper [] [] 0) splitter_init) as [Hc [Hk _]].
  { repeat split. }
  now rewrite Hc, Hk, map_app.
Qed.

Lemma tl_app_nonempty {A} (a b : list A) :
  a <> [] -> tl (a ++ b) = (tl a ++ b)%list.
Proof. destruct a; [congruence | reflexivity]. Qed.

Lemma starts_at_delimiter_snoc (g : list string) (line : string) :
  starts_at_delimiter g -> starts_at_delimiter (g ++ [line]).
Proof. intros [d [r [-> Hd]]]. now exists d, (r ++ [line])%list. Qed.

Lemma heads_snoc (gs : list (list string)) (g : list string) (line : string) :
  Forall starts_at_delimiter (tl (gs ++ [g])) ->
  Forall starts_at_delimiter (tl (gs ++ [(g ++ [line])%list])).
Proof.
  destruct gs as [|g0 gs]; cbn [app tl]; [constructor|].
  rewrite !Forall_app. intros [H1 H2]. split; [exact H1|].
  constructor; [|constructor]. apply starts_at_delimiter_snoc.
  now inversion H2.
Qed.

Lemma grouped_step (g : grouper) (line : string) :
  grouped g -> grouped (group_step g line).
Proof.
  intros [Hs Hl Hh]. unfold group_step.
  destruct (startswith (repeat_char "-" 4) line) eqn:Hd.
  - destruct (group_size g >? SPLIT_SIZE) eqn:Hbig;
      cbn [groups group group_size].
    + constructor; cbn [groups group group_size].
      * reflexivity.
      * rewrite Forall_app. split; [exact Hl|]. constructor; [|constructor].
        rewrite <- Hs. lia.
      * rewrite tl_app_nonempty by (destruct (groups g); discriminate).
        rewrite Forall_app. split.
        -- destruct (groups g); exact Hh.
        -- constructor; [|constructor]. now exists line, [].
    + constructor; cbn [groups group group_size].
      * rewrite join_app, len_append, Hs. reflexivity.
      * exact Hl.
      * now apply heads_snoc.
  - constructor; cbn [groups group group_size].
    + rewrite join_app, len_append, Hs. reflexivity.
    + exact Hl.
    + now apply heads_snoc.
Qed.

Lemma grouped_fold (lines : list string) (g : grouper) :
  grouped g -> grouped (fold_left group_step lines g).
Proof.
  revert g. induction lines as [|l lines IH]; intros g H; [exact H|].
  cbn [fold_left]. apply IH. now apply grouped_step.
Qed.

Lemma grouped_init : grouped (mk_grouper [] [] 0).
Proof. constructor; cbn; constructor. Qed.

Lemma concat_snoc {A} (gs : list (list A)) (g : list A) :
  List.concat (gs ++ [g]) = (List.concat gs ++ g)%list.
Proof. rewrite concat_app. cbn [List.concat]. now rewrite app_nil_r. Qed.

Lemma concat_step (g : grouper) (line : string) :
  List.concat (groups (group_step g line) ++ [group (group_step g line)])
  = (List.concat (groups g ++ [group g]) ++ [line])%list.
Proof.
  unfold group_step.
  destruct (startswith (repeat_char "-" 4) line);
    [destruct (group_size g >? SPLIT_SIZE)|];
    cbn [groups group app]; rewrite !concat_snoc, ?app_assoc; reflexivity.
Qed.

Lemma concat_fold (lines : list string) (g : grouper) :
  List.concat (groups (fold_left group_step lines g)
               ++ [group (fold_left group_step lines g)])
  = (List.concat (groups g ++ [group g]) ++ lines)%list.
Proof.
  revert g. induction lines as [|l lines IH]; intros g; cbn [fold_left].
  - now rewrite app_nil_r.
  - rewrite IH, concat_step, <- app_assoc. reflexivity.
Qed.

(** The chunks are consecutive runs of the lines. *)
Lemma concat_split_groups (lines : list string) :
  List.concat (split_groups lines) = lines.
Proof. unfold split_groups. now rewrite concat_fold. Qed.

Lemma removelast_snoc {A} (l : list A) (x : A) : removelast (l ++ [x]) = l.
Proof. apply removelast_last. Qed.

Lemma enumerate_from_snd {A} (l : list A) (i : nat) :
  map snd (enumerate_from i l) = l.
Proof. revert i. induction l as [|x l IH]; intros i; simpl; [|rewrite IH]; reflexivity. Qed.

Lemma enumerate_from_fst {A} (l : list A) (i : nat) :
  map fst (enumerate_from i l) = seq i (List.length l).
Proof. revert i. induction l as [|x l IH]; intros i; simpl; [|rewrite IH]; reflexivity. Qed.

Lemma chunk_files_contents (file_path text : string) :
  map snd (chunk_files file_path text) = split_chunks (lines_of text).
Proof.
  unfold chunk_files. rewrite map_map.
  rewrite <- (enumerate_from_snd (split_chunks (lines_of text)) 0) at 2.
  apply map_ext. now intros [i c].
Qed.

Lemma chunk_files_names (file_path text : string) :
  map fst (chunk_files file_path text)
  = map (chunk_name file_path) (seq 0 (List.length (chunk_files file_path text))).
Proof.
  unfold chunk_files. rewrite length_map, map_map.
  rewrite <- (length_map fst), enumerate_from_fst, length_seq.
  rewrite <- (enumerate_from_fst (split_chunks (lines_of text)) 0).
  rewrite map_map. apply map_ext. now intros [i c].
Qed.

(** The writing loop stores the chunks one after the other and returns. *)
Lemma write_chunks (file_path : string) (l : list (nat * string)) (h : host) :
  written (fst (for_each l
     (fun '(i, chunk) =>
        write_file (chunk_name file_path i) chunk ;;
        say ("Chunk " ++ str_of_nat i ++ " written to " ++ chunk_name file_path i))
     h))
  = (written h ++ map (fun '(i, chunk) => (chunk_name file_path i, chunk)) l)%list
  /\ snd (for_each l
     (fun '(i, chunk) =>
        write_file (chunk_name file_path i) chunk ;;
        say ("Chunk " ++ str_of_nat i ++ " written to " ++ chunk_name file_path i))
     h) = Returned tt.
Proof.
  set (body := fun '(i, chunk) =>
        write_file (chunk_name file_path i) chunk ;;
        say ("Chunk " ++ str_of_nat i ++ " written to " ++ chunk_name file_path i)).
  revert h. induction l as [|[i c] l IH]; intros h.
  - cbn. now rewrite app_nil_r.
  - cbn [for_each map]. unfold bind.
    assert (Hb : body (i, c) h
                 = (mk_host (written h ++ [(chunk_name file_path i, c)])
                      (screen h ++ ["Chunk " ++ str_of_nat i ++ " written to "
                                    ++ chunk_name file_path i]),
                    Returned tt)) by reflexivity.
    rewrite Hb.
    match goal with |- context [for_each l body ?h'] =>
      destruct (IH h') as [IH1 IH2]; rewrite IH1, IH2 end.
    cbn [written]. now rewrite <- app_assoc.
Qed.

Lemma split_file_run (read_text : string -> option string)
    (file_path text : string) (h : host) :
  open_read read_text file_path h = (h, Returned text) ->
  written (fst (split_file read_text file_path h))
  = (written h ++ chunk_files file_path text)%list
  /\ snd (split_file read_text file_path h) = Returned tt.
Proof.
  intros Hopen.
  destruct (write_chunks file_path
              (enumerate_from 0 (split_chunks (lines_of text))) h) as [H1 H2].
  unfold split_file, chunk_files, bind in *. rewrite Hopen.
  match goal with |- context [for_each ?l ?b h] =>
    destruct (for_each l b h) as [h' o] end.
  cbn [fst snd] in *. subst o. cbn [say fst snd written]. auto.
Qed.

Lemma len_join_prefix (a b : list string) : len (join a) <= len (join (a ++ b)).
Proof. rewrite join_app, len_append. pose proof (len_nonneg (join b)). lia. Qed.

(** An input no larger than the threshold is one chunk. *)
Lemma split_groups_small (lines : list string) :
  len (join lines) <= SPLIT_SIZE -> split_groups lines = [lines].
Proof.
  intros Hsmall.
  pose proof (grouped_fold lines _ grouped_init) as [_ Hlarge _].
  pose proof (concat_split_groups lines) as Hcat.
  unfold split_groups in *.
  destruct (groups (fold_left group_step lines (mk_grouper [] [] 0)))
    as [|g0 gs].
  - cbn in Hcat |- *. rewrite app_nil_r in Hcat. now rewrite Hcat.
  - exfalso. inversion Hlarge as [|? ? Hg0 _]; subst.
    cbn [app List.concat] in Hcat.
    pose proof (len_join_prefix g0
                  (List.concat (gs ++ [group (fold_left group_step lines
                                               (mk_grouper [] [] 0))]))) as Hle.
    rewrite Hcat in Hle. lia.
Qed.

(** Two neighbouring lines are in one chunk when the second one does not
    begin a chunk. *)
Lemma same_group (gs : list (list string)) (pre post : list string)
    (d p : string) :
  List.concat gs = (pre ++ d :: p :: post)%list ->
  Forall starts_at_delimiter (tl gs) ->
  startswith "----" p = false ->
  exists (gs1 gs2 : list (list string)) (a b : list string),
    gs = (gs1 ++ (a ++ d :: p :: b) :: gs2)%list
    /\ (List.concat gs1 ++ a)%list = pre.
Proof.
  intros Hcat Hheads Hp. revert pre Hcat Hheads.
  induction gs as [|g gs IH]; intros pre Hcat Hheads.
  - destruct pre; discriminate.
  - cbn [List.concat tl] in *.
    assert (Htl : Forall starts_at_delimiter (tl gs)).
    { destruct gs; [constructor | now inversion Hheads]. }
    apply app_eq_app in Hcat.
    destruct Hcat as [l [[Hg Hrest] | [Hpre Hrest]]].
    + destruct l as [|x [|y l]].
      * cbn [app] in Hrest. rewrite app_nil_r in Hg. subst g.
        destruct (IH [] (eq_sym Hrest) Htl) as [gs1 [gs2 [a [b [Hgs Ha]]]]].
        exists (pre :: gs1), gs2, a, b. split.
        -- now rewrite Hgs.
        -- cbn [List.concat]. now rewrite <- app_assoc, Ha, app_nil_r.
      * exfalso. cbn [app] in Hrest. injection Hrest as -> Hrest.
        destruct gs as [|g' gs]; [discriminate|].
        inversion Hheads as [|? ? [d' [r [-> Hd']]] _]; subst.
        cbn in Hrest. injection Hrest as -> _. congruence.
      * cbn [app] in Hrest. injection Hrest as -> -> ->.
        exists [], gs, pre, l. split; [now subst g | reflexivity].
    + destruct (IH l Hrest Htl) as [gs1 [gs2 [a [b [Hgs Ha]]]]].
      exists (g :: gs1), gs2, a, b. split.
      * now rewrite Hgs.
      * cbn [List.concat]. now rewrite <- app_assoc, Ha.
Qed.

Lemma removelast_map {A B} (f : A -> B) (l : list A) :
  removelast (map f l) = map f (removelast l).
Proof.
  induction l as [|x l IH]; [reflexivity|].
  cbn [map removelast]. destruct l; [reflexivity|].
  cbn [map] in *. now rewrite IH.
Qed.

(** The chunks flushed inside the loop are above the threshold. *)
Lemma flushed_chunks_large (lines : list string) (c : string) :
  In c (removelast (split_chunks lines)) -> SPLIT_SIZE < len c.
Proof.
  rewrite split_chunks_groups. unfold split_groups.
  rewrite map_app. change (map join [?g]) with [join g].
  rewrite removelast_snoc.
  pose proof (grouped_fold lines _ grouped_init) as [_ Hlarge _].
  rewrite in_map_iff. intros [g [<- Hg]].
  rewrite Forall_forall in Hlarge. now apply Hlarge.
Qed.

Lemma bytes_of_text_app (linesep a b : string) :
  bytes_of_text linesep (a ++ b)
  = bytes_of_text linesep a ++ bytes_of_text linesep b.
Proof.
  induction a as [|c a IH]; [reflexivity|].
  cbn [append bytes_of_text]. rewrite IH.
  destruct (Ascii.eqb c LF); [now rewrite append_assoc | reflexivity].
Qed.

Lemma bytes_of_text_join (linesep : string) (l : list string) :
  bytes_of_text linesep (join l) = join (map (bytes_of_text linesep) l).
Proof.
  induction l as [|x l IH]; [reflexivity|].
  cbn [map]. now rewrite !join_cons, bytes_of_text_app, IH.
Qed.

(** Reading back what was written of a text without CR gives the text. *)
Lemma text_of_bytes_of_text (linesep t : string) :
  linesep = posix_linesep \/ linesep = windows_linesep ->
  cr_free t = true ->
  text_of_bytes (bytes_of_text linesep t) = t.
Proof.
  intros Hsep. unfold text_of_bytes.
  induction t as [|c t IH]; [reflexivity|].
  cbn [cr_free bytes_of_text]. intros Hfree.
  apply andb_prop in Hfree. destruct Hfree as [Hc Hfree].
  apply negb_true_iff in Hc.
  destruct (Ascii.eqb c LF) eqn:Hlf.
  - apply Ascii.eqb_eq in Hlf. subst c.
    destruct Hsep as [-> | ->]; cbn; now rewrite (IH Hfree).
  - cbn [read_newlines]. rewrite Hc, Hlf. cbn [andb]. now rewrite (IH Hfree).
Qed.

(** Text read in text mode holds no CR. *)
Lemma read_newlines_cr_free (b : string) (after_cr : bool) :
  cr_free (read_newlines after_cr b) = true.
Proof.
  revert after_cr. induction b as [|c b IH]; intros after_cr; [reflexivity|].
  cbn [read_newlines]. destruct (Ascii.eqb c CR) eqn:Hc.
  - cbn [cr_free]. now rewrite IH.
  - destruct (Ascii.eqb c LF && after_cr); [apply IH|].
    cbn [cr_free]. now rewrite Hc, IH.
Qed.

Lemma bytes_of_text_posix (t : string) : bytes_of_text posix_linesep t = t.
Proof.
  induction t as [|c t IH]; [reflexivity|].
  cbn [bytes_of_text]. rewrite IH. destruct (Ascii.eqb c LF) eqn:Hlf.
  - apply Ascii.eqb_eq in Hlf. now subst c.
  - reflexivity.
Qed.

(** C4 (amended): let the input file hold the bytes [bytes].  The chunk
    files are named with the indices 0, 1, ... in order, and their texts
    concatenate to the text read from the input.  Their bytes, taken in that
    order, are the bytes of the input exactly when reading the input in text
    mode and writing the text back gives the input again; so they are for
    every input that was written in text mode under the same line separator
    from a text without carriage return, and, where the line separator is
    LF, for the inputs without carriage return and no others. *)
Theorem chunks_reproduce_input_bytes :
  forall (read_text : string -> option string)
         (linesep file_path bytes : string) (h : host),
    open_read read_text file_path h = (h, Returned (text_of_bytes bytes)) ->
    exists files,
      written (fst (split_file read_text file_path h))
      = (written h ++ files)%list
      /\ map fst files
         = map (chunk_name file_path) (seq 0 (List.length files))
      /\ join (map snd files) = text_of_bytes bytes
      /\ (chunk_bytes linesep files = bytes
          <-> bytes_of_text linesep (text_of_bytes bytes) = bytes)
      /\ (forall t,
            linesep = posix_linesep \/ linesep = windows_linesep ->
            cr_free t = true -> bytes = bytes_of_text linesep t ->
            chunk_bytes linesep files = bytes)
      /\ (linesep = posix_linesep ->
          (chunk_bytes linesep files = bytes <-> cr_free bytes = true)).
Proof.
  intros read_text linesep file_path bytes h Hopen.
  exists (chunk_files file_path (text_of_bytes bytes)).
  assert (Htext : join (map snd (chunk_files file_path (text_of_bytes bytes)))
                  = text_of_bytes bytes).
  { rewrite chunk_files_contents, split_chunks_groups, join_concat.
    now rewrite concat_split_groups, join_lines_of. }
  assert (Hbytes : chunk_bytes linesep
                     (chunk_files file_path (text_of_bytes bytes))
                   = bytes_of_text linesep (text_of_bytes bytes)).
  { unfold chunk_bytes. rewrite <- Htext at 2.
    rewrite bytes_of_text_join, map_map. reflexivity. }
  split; [|split; [|split; [|split; [|split]]]].
  - apply (split_file_run read_text file_path _ h Hopen).
  - apply chunk_files_names.
  - exact Htext.
  - now rewrite Hbytes.
  - intros t Hsep Hfree ->. rewrite Hbytes.
    now rewrite (text_of_bytes_of_text linesep t Hsep Hfree).
  - intros ->. rewrite Hbytes, bytes_of_text_posix. split.
    + intros <-. apply read_newlines_cr_free.
    + intros Hfree.
      rewrite <- (bytes_of_text_posix bytes) at 1.
      apply (text_of_bytes_of_text posix_linesep bytes); [now left | exact Hfree].
Qed.

Lemma chunks_reproduce_input_bytes_witness :
  let bytes := "----" ++ windows_linesep ++ "a.txt" ++ windows_linesep
               ++ "hello" ++ windows_linesep in
  let disk := fun p : string =>
                if String.eqb p "output.txt" then Some bytes else None in
  exists files,
    written (fst (split_file (text_mode disk) "output.txt" (mk_host [] [])))
    = files
    /\ map fst files = ["output_0.txt"]
    /\ chunk_bytes windows_linesep files = bytes.
Proof.
  cbv zeta.
  destruct (chunks_reproduce_input_bytes
              (text_mode
                 (fun p : string =>
                    if String.eqb p "output.txt"
                    then Some ("----" ++ windows_linesep ++ "a.txt"
                               ++ windows_linesep ++ "hello" ++ windows_linesep)
                    else None))
              windows_linesep "output.txt"
              ("----" ++ windows_linesep ++ "a.txt" ++ windows_linesep
               ++ "hello" ++ windows_linesep)
              (mk_host [] []) eq_refl)
    as [files [Hw [Hn [_ [_ [Hfrom _]]]]]].
  exists files. split; [exact Hw|]. split.
  - rewrite Hn. cbn [written app] in Hw. rewrite <- Hw. reflexivity.
  - apply (Hfrom ("----" ++ nl ++ "a.txt" ++ nl ++ "hello" ++ nl));
      [now right | reflexivity | reflexivity].
Defined.

(** C4, as stated: the chunk files are said to give back the bytes of every
    input.  Where the line separator is LF, an input with the four bytes
    a CR LF b is read as the text a LF b, and the one chunk file holds the
    three bytes a LF b; where it is CR LF, an input with the three bytes
    a LF b gives a chunk file of the four bytes a CR LF b. *)
Lemma carriage_return_not_reproduced :
  let dos := "a" ++ windows_linesep ++ "b" in
  let unix := "a" ++ posix_linesep ++ "b" in
  let disk := fun bytes (p : string) =>
                if String.eqb p "in.txt" then Some bytes else None in
  let of_dos :=
    written (fst (split_file (text_mode (disk dos)) "in.txt" (mk_host [] []))) in
  let of_unix :=
    written (fst (split_file (text_mode (disk unix)) "in.txt" (mk_host [] []))) in
  open_read (text_mode (disk dos)) "in.txt" (mk_host [] [])
  = (mk_host [] [], Returned (text_of_bytes dos))
  /\ of_dos = [("in_0.txt", "a" ++ nl ++ "b")]
  /\ chunk_bytes posix_linesep of_dos = unix
  /\ chunk_bytes posix_linesep of_dos <> dos
  /\ open_read (text_mode (disk unix)) "in.txt" (mk_host [] [])
     = (mk_host [] [], Returned (text_of_bytes unix))
  /\ of_unix = [("in_0.txt", "a" ++ nl ++ "b")]
  /\ chunk_bytes windows_linesep of_unix = dos
  /\ chunk_bytes windows_linesep of_unix <> unix.
Proof.
  cbv zeta.
  split; [reflexivity|]. split; [reflexivity|]. split; [reflexivity|].
  split; [discriminate|].
  split; [reflexivity|]. split; [reflexivity|]. split; [reflexivity|].
  discriminate.
Qed.

(** C6: a run of the splitter on a readable input returns and has written
    its chunk files, of which there is at least one, the file of index 0.
    An empty input gives that one file, empty; an input of at most
    4,000,000 characters gives that one file, holding the input. *)
Theorem split_file_writes_a_chunk :
  forall (read_text : string -> option string) (file_path text : string)
         (h : host),
    open_read read_text file_path h = (h, Returned text) ->
    snd (split_file read_text file_path h) = Returned tt
    /\ written (fst (split_file read_text file_path h))
       = (written h ++ chunk_files file_path text)%list
    /\ (exists first rest,
          chunk_files file_path text = (chunk_name file_path 0, first) :: rest)
    /\ (text = "" ->
        chunk_files file_path text = [(chunk_name file_path 0, "")])
    /\ (len text <= 4000000 ->
        chunk_files file_path text = [(chunk_name file_path 0, text)]).
Proof.
  intros read_text file_path text h Hopen.
  destruct (split_file_run read_text file_path text h Hopen) as [Hw Ho].
  assert (Hsmall : len text <= 4000000 ->
            chunk_files file_path text = [(chunk_name file_path 0, text)]).
  { intros Hle. unfold chunk_files.
    rewrite split_chunks_groups, split_groups_small.
    - cbn. now rewrite join_lines_of.
    - now rewrite join_lines_of. }
  repeat split; try assumption.
  - unfold chunk_files, split_chunks.
    destruct (chunks (fold_left split_step (lines_of text) splitter_init))
      as [|c cs]; cbn; eauto.
  - intros ->. now apply Hsmall.
Qed.

Lemma split_file_writes_a_chunk_witness :
  written (fst (split_file (fun _ => Some "") "output.txt" (mk_host [] [])))
  = [("output_0.txt", "")].
Proof.
  exact (proj1 (proj2 (split_file_writes_a_chunk (fun _ => Some "")
                         "output.txt" "" (mk_host [] []) eq_refl))).
Defined.

(** C10: every chunk file except the last holds more than 4,000,000
    characters, so takes more than 4,000,000 bytes in an encoding that
    spends at least one byte on each character. *)
Theorem flushed_chunks_exceed_split_size :
  forall (size_on_disk : string -> Z),
    (forall s, len s <= size_on_disk s) ->
    forall (file_path text name c : string),
      In (name, c) (removelast (chunk_files file_path text)) ->
      4000000 < len c /\ 4000000 < size_on_disk c.
Proof.
  intros size_on_disk Hsize file_path text name c Hin.
  assert (Hc : In c (removelast (split_chunks (lines_of text)))).
  { rewrite <- (chunk_files_contents file_path text), removelast_map.
    apply in_map_iff. now exists (name, c). }
  apply flushed_chunks_large in Hc. unfold SPLIT_SIZE in Hc.
  specialize (Hsize c). lia.
Qed.

(** C5 (amended): the chunks are consecutive runs of whole lines; every
    chunk after the first starts at a line that begins with four hyphens;
    and a line that does not begin with four hyphens is in the chunk of the
    line before it, so a delimiter line and a path line that does not begin
    with four hyphens are never put into different chunks. *)
Theorem chunk_boundaries_at_delimiters :
  forall (text : string),
    split_chunks (lines_of text) = map join (split_groups (lines_of text))
    /\ List.concat (split_groups (lines_of text)) = lines_of text
    /\ Forall starts_at_delimiter (tl (split_groups (lines_of text)))
    /\ (forall c, In c (tl (split_chunks (lines_of text))) ->
                  startswith "----" c = true)
    /\ (forall pre d p post,
          lines_of text = (pre ++ d :: p :: post)%list ->
          startswith "----" p = false ->
          same_chunk (lines_of text) pre d p).
Proof.
  intros text.
  assert (Hheads : Forall starts_at_delimiter (tl (split_groups (lines_of text)))).
  { unfold split_groups.
    now pose proof (grouped_fold (lines_of text) _ grouped_init) as [_ _ H]. }
  split; [apply split_chunks_groups|].
  split; [apply concat_split_groups|].
  split; [exact Hheads|]. split.
  - intros c. rewrite split_chunks_groups.
    destruct (split_groups (lines_of text)) as [|g gs]; [intros []|].
    cbn [map tl] in *. rewrite in_map_iff. intros [g' [<- Hg']].
    rewrite Forall_forall in Hheads.
    destruct (Hheads g' Hg') as [d [r [-> Hd]]].
    rewrite join_cons. now apply startswith_append.
  - intros pre d p post Hlines Hp. unfold same_chunk.
    apply (same_group _ pre post d p); try assumption.
    now rewrite concat_split_groups.
Qed.

Lemma chunk_boundaries_at_delimiters_witness :
  same_chunk (lines_of ("----" ++ nl ++ "a.txt" ++ nl ++ "hello" ++ nl))
    [] ("----" ++ nl) ("a.txt" ++ nl).
Proof.
  apply (proj2 (proj2 (proj2 (proj2 (chunk_boundaries_at_delimiters
           ("----" ++ nl ++ "a.txt" ++ nl ++ "hello" ++ nl)))))
           [] ("----" ++ nl) ("a.txt" ++ nl) ["hello" ++ nl]);
    reflexivity.
Defined.

(** ** Inputs about the size of the threshold *)

Lemma length_repeat_char (c : ascii) (n : nat) :
  String.length (repeat_char c n) = n.
Proof. induction n as [|n IH]; simpl; congruence. Qed.

Lemma len_filler (n : Z) : 0 <= n -> len (filler n) = n + 1.
Proof.
  intros Hn. unfold filler, len.
  rewrite length_append, length_repeat_char. cbn [String.length nl]. lia.
Qed.

Lemma filler_not_delimiter (n : Z) : startswith "----" (filler n) = false.
Proof. unfold filler. destruct (Z.to_nat n); reflexivity. Qed.

Lemma no_newline_repeat_char (n : nat) : no_newline (repeat_char "x" n) = true.
Proof. induction n as [|n IH]; [reflexivity | exact IH]. Qed.

Lemma lines_of_line (a rest : string) :
  no_newline a = true ->
  lines_of ((a ++ nl) ++ rest) = (a ++ nl) :: lines_of rest.
Proof.
  induction a as [|c a IH]; intros Ha.
  - reflexivity.
  - cbn [no_newline] in Ha. apply andb_true_iff in Ha. destruct Ha as [Hc Ha].
    apply negb_true_iff in Hc.
    cbn [append lines_of]. rewrite Hc, (IH Ha). reflexivity.
Qed.

Lemma lines_of_filler (n : Z) (rest : string) :
  lines_of (filler n ++ rest) = filler n :: lines_of rest.
Proof. unfold filler. apply lines_of_line, no_newline_repeat_char. Qed.

(** The three cases of an iteration. *)
Lemma split_step_plain (st : splitter) (line : string) :
  startswith "----" line = false ->
  split_step st line
  = mk_splitter (chunks st) (chunk st ++ line) (chunk_size st + len line).
Proof. intros H. unfold split_step. cbn [repeat_char]. now rewrite H. Qed.

Lemma split_step_keep (st : splitter) (line : string) :
  startswith "----" line = true -> chunk_size st <= 4000000 ->
  split_step st line
  = mk_splitter (chunks st) (chunk st ++ line) (chunk_size st + len line).
Proof.
  intros H Hsize. unfold split_step, SPLIT_SIZE. cbn [repeat_char]. rewrite H.
  replace (chunk_size st >? 4000000) with false by (symmetry; lia).
  reflexivity.
Qed.

Lemma split_step_flush (st : splitter) (line : string) :
  startswith "----" line = true -> 4000000 < chunk_size st ->
  split_step st line
  = mk_splitter (chunks st ++ [chunk st]) line (len line).
Proof.
  intros H Hsize. unfold split_step, SPLIT_SIZE. cbn [repeat_char]. rewrite H.
  replace (chunk_size st >? 4000000) with true by (symmetry; lia).
  reflexivity.
Qed.

Lemma step_plain (cs : list string) (c : string) (n : Z) (line : string) :
  startswith "----" line = false ->
  split_step (mk_splitter cs c n) line
  = mk_splitter cs (c ++ line) (n + len line).
Proof. exact (split_step_plain (mk_splitter cs c n) line). Qed.

Lemma step_keep (cs : list string) (c : string) (n : Z) (line : string) :
  startswith "----" line = true -> n <= 4000000 ->
  split_step (mk_splitter cs c n) line
  = mk_splitter cs (c ++ line) (n + len line).
Proof. exact (split_step_keep (mk_splitter cs c n) line). Qed.

Lemma step_flush (cs : list string) (c : string) (n : Z) (line : string) :
  startswith "----" line = true -> 4000000 < n ->
  split_step (mk_splitter cs c n) line
  = mk_splitter (cs ++ [c]) line (len line).
Proof. exact (split_step_flush (mk_splitter cs c n) line). Qed.

Lemma two_records_lines (n1 n2 : Z) :
  lines_of (two_records n1 n2)
  = ["----" ++ nl; "a.txt" ++ nl; filler n1;
     "----" ++ nl; "b.txt" ++ nl; filler n2; "--END--"].
Proof.
  unfold two_records.
  rewrite (lines_of_line "----") by reflexivity.
  rewrite (lines_of_line "a.txt") by reflexivity.
  rewrite lines_of_filler.
  rewrite (lines_of_line "----") by reflexivity.
  rewrite (lines_of_line "b.txt") by reflexivity.
  rewrite lines_of_filler. reflexivity.
Qed.

Lemma hyphen_named_lines (n : Z) :
  lines_of (hyphen_named n)
  = ["----" ++ nl; "a.txt" ++ nl; filler n;
     "----" ++ nl; "----x" ++ nl; "body" ++ nl; "--END--"].
Proof.
  unfold hyphen_named.
  rewrite (lines_of_line "----") by reflexivity.
  rewrite (lines_of_line "a.txt") by reflexivity.
  rewrite lines_of_filler.
  rewrite (lines_of_line "----") by reflexivity.
  rewrite (lines_of_line "----x") by reflexivity.
  rewrite (lines_of_line "body") by reflexivity.
  reflexivity.
Qed.

Ltac size_goal :=
  rewrite ?len_filler by lia;
  repeat match goal with
         | |- context [len ?s] =>
             lazymatch s with
             | filler _ => fail
             | _ => let v := eval vm_compute in (len s) in
                    change (len s) with v
             end
         end;
  lia.

Ltac plain_line :=
  rewrite step_plain by (reflexivity || apply filler_not_delimiter).
Ltac kept_delimiter :=
  rewrite step_keep by (reflexivity || size_goal).
Ltac flushing_delimiter :=
  rewrite step_flush by (reflexivity || size_goal).

(** Both Records in one chunk: at the second delimiter line the buffer is
    not above the threshold yet, and nothing is checked after it. *)
Lemma two_records_one_chunk (n1 n2 : Z) :
  0 <= n1 <= 3999988 -> 0 <= n2 ->
  split_chunks (lines_of (two_records n1 n2)) = [two_records n1 n2].
Proof.
  intros Hn1 Hn2. rewrite two_records_lines.
  unfold split_chunks, splitter_init. cbn [fold_left].
  kept_delimiter. plain_line. plain_line. kept_delimiter.
  plain_line. plain_line. plain_line.
  cbn [chunks chunk app]. unfold two_records.
  rewrite !append_assoc. reflexivity.
Qed.

(** Above the threshold at the second delimiter line: two chunks. *)
Lemma two_records_two_chunks (n1 n2 : Z) :
  3999989 <= n1 -> 0 <= n2 ->
  split_chunks (lines_of (two_records n1 n2))
  = [("----" ++ nl) ++ ("a.txt" ++ nl) ++ filler n1;
     ("----" ++ nl) ++ ("b.txt" ++ nl) ++ filler n2 ++ "--END--"].
Proof.
  intros Hn1 Hn2. rewrite two_records_lines.
  unfold split_chunks, splitter_init. cbn [fold_left].
  kept_delimiter. plain_line. plain_line. flushing_delimiter.
  plain_line. plain_line. plain_line.
  cbn [chunks chunk app]. rewrite !append_assoc. reflexivity.
Qed.

Lemma len_two_records (n1 n2 : Z) :
  0 <= n1 -> 0 <= n2 -> len (two_records n1 n2) = n1 + n2 + 31.
Proof.
  intros Hn1 Hn2. unfold two_records. rewrite !len_append. size_goal.
Qed.

Lemma two_records_one_file (n1 n2 : Z) :
  0 <= n1 <= 3999988 -> 0 <= n2 ->
  chunk_files "output.txt" (two_records n1 n2)
  = [("output_0.txt", two_records n1 n2)].
Proof.
  intros Hn1 Hn2. unfold chunk_files.
  now rewrite (two_records_one_chunk n1 n2 Hn1 Hn2).
Qed.

Lemma two_records_two_files (n1 n2 : Z) :
  3999989 <= n1 -> 0 <= n2 ->
  chunk_files "output.txt" (two_records n1 n2)
  = [("output_0.txt", ("----" ++ nl) ++ ("a.txt" ++ nl) ++ filler n1);
     ("output_1.txt",
      ("----" ++ nl) ++ ("b.txt" ++ nl) ++ filler n2 ++ "--END--")].
Proof.
  intros Hn1 Hn2. unfold chunk_files.
  now rewrite (two_records_two_chunks n1 n2 Hn1 Hn2).
Qed.

Lemma two_records_first_flushed (n1 n2 : Z) :
  3999989 <= n1 -> 0 <= n2 ->
  In ("output_0.txt", ("----" ++ nl) ++ ("a.txt" ++ nl) ++ filler n1)
     (removelast (chunk_files "output.txt" (two_records n1 n2))).
Proof.
  intros Hn1 Hn2. rewrite (two_records_two_files n1 n2 Hn1 Hn2). now left.
Qed.

(** C3, evaluated: an output file of 5,000,001 characters made of two
    Records of about 2,500,000 characters each is written back as a single
    chunk file of 5,000,001 characters. *)
Lemma spec_scenario_single_oversized_chunk :
  len (two_records 2499989 2499981) = 5000001
  /\ chunk_files "output.txt" (two_records 2499989 2499981)
     = [("output_0.txt", two_records 2499989 2499981)].
Proof.
  split.
  - rewrite len_two_records by lia. reflexivity.
  - apply two_records_one_file; lia.
Qed.

Lemma flushed_chunks_exceed_split_size_witness :
  In ("output_0.txt", ("----" ++ nl) ++ ("a.txt" ++ nl) ++ filler 4000000)
     (removelast (chunk_files "output.txt" (two_records 4000000 0)))
  /\ 4000000 < len (("----" ++ nl) ++ ("a.txt" ++ nl) ++ filler 4000000).
Proof.
  assert (Hin : In ("output_0.txt",
                    ("----" ++ nl) ++ ("a.txt" ++ nl) ++ filler 4000000)
                   (removelast (chunk_files "output.txt" (two_records 4000000 0)))).
  { apply two_records_first_flushed; lia. }
  split; [exact Hin|].
  exact (proj1 (flushed_chunks_exceed_split_size len (fun s => Z.le_refl (len s))
                  "output.txt" (two_records 4000000 0) "output_0.txt"
                  (("----" ++ nl) ++ ("a.txt" ++ nl) ++ filler 4000000) Hin)).
Defined.

(** The grouping loop on the same cases. *)
Lemma group_plain (gs : list (list string)) (g : list string) (n : Z)
    (line : string) :
  startswith "----" line = false ->
  group_step (mk_grouper gs g n) line
  = mk_grouper gs (g ++ [line]) (n + len line).
Proof. intros H. unfold group_step. cbn [repeat_char]. now rewrite H. Qed.

Lemma group_keep (gs : list (list string)) (g : list string) (n : Z)
    (line : string) :
  startswith "----" line = true -> n <= 4000000 ->
  group_step (mk_grouper gs g n) line
  = mk_grouper gs (g ++ [line]) (n + len line).
Proof.
  intros H Hn. unfold group_step, SPLIT_SIZE. cbn [repeat_char group_size].
  rewrite H. replace (n >? 4000000) with false by (symmetry; lia).
  reflexivity.
Qed.

Lemma group_flush (gs : list (list string)) (g : list string) (n : Z)
    (line : string) :
  startswith "----" line = true -> 4000000 < n ->
  group_step (mk_grouper gs g n) line
  = mk_grouper (gs ++ [g]) [line] (len line).
Proof.
  intros H Hn. unfold group_step, SPLIT_SIZE. cbn [repeat_char group_size].
  rewrite H. replace (n >? 4000000) with true by (symmetry; lia).
  reflexivity.
Qed.

(** The first Record fills the buffer up to the threshold: its successor's
    delimiter line is kept in the buffer, and the next line, which begins
    with four hyphens, starts the second chunk. *)
Lemma hyphen_named_groups (n : Z) :
  3999984 <= n <= 3999988 ->
  split_groups (lines_of (hyphen_named n))
  = [["----" ++ nl; "a.txt" ++ nl; filler n; "----" ++ nl];
     ["----x" ++ nl; "body" ++ nl; "--END--"]].
Proof.
  intros Hn. rewrite hyphen_named_lines.
  unfold split_groups. cbn [fold_left].
  rewrite group_keep by (reflexivity || size_goal).
  rewrite group_plain by reflexivity.
  rewrite group_plain by apply filler_not_delimiter.
  rewrite group_keep by (reflexivity || size_goal).
  rewrite group_flush by (reflexivity || size_goal).
  rewrite group_plain by reflexivity.
  rewrite group_plain by reflexivity.
  reflexivity.
Qed.

Lemma hyphen_named_apart (n : Z) :
  3999984 <= n <= 3999988 ->
  ~ same_chunk (lines_of (hyphen_named n))
      ["----" ++ nl; "a.txt" ++ nl; filler n] ("----" ++ nl) ("----x" ++ nl).
Proof.
  intros Hn [gs1 [gs2 [a [b [Hg Ha]]]]].
  rewrite (hyphen_named_groups n Hn) in Hg.
  destruct gs1 as [|x [|y gs1]]; cbn [app List.concat] in Hg, Ha.
  - subst a. injection Hg as Hg _.
    apply (f_equal (@List.length string)) in Hg. cbn in Hg. lia.
  - injection Hg as <- _ _.
    apply (f_equal (@List.length string)) in Ha. cbn in Ha. lia.
  - apply (f_equal (@List.length (list string))) in Hg.
    cbn in Hg. rewrite length_app in Hg. cbn in Hg. lia.
Qed.

(** C5, as stated: a Record's delimiter line and its path line are said to
    land in the same chunk always.  For a file named [----x] after a Record
    that fills the buffer to the threshold, the delimiter line ends one
    chunk and the path line starts the next. *)
Lemma delimiter_and_path_line_apart :
  lines_of (hyphen_named 3999988)
  = ["----" ++ nl; "a.txt" ++ nl; filler 3999988;
     "----" ++ nl; "----x" ++ nl; "body" ++ nl; "--END--"]
  /\ split_groups (lines_of (hyphen_named 3999988))
     = [["----" ++ nl; "a.txt" ++ nl; filler 3999988; "----" ++ nl];
        ["----x" ++ nl; "body" ++ nl; "--END--"]]
  /\ ~ same_chunk (lines_of (hyphen_named 3999988))
         ["----" ++ nl; "a.txt" ++ nl; filler 3999988]
         ("----" ++ nl) ("----x" ++ nl).
Proof.
  split; [apply hyphen_named_lines|].
  split; [apply hyphen_named_groups; lia | apply hyphen_named_apart; lia].
Qed.

(** ** Command line *)

Lemma mem_In (x : string) (l : list string) : mem x l = true <-> In x l.
Proof.
  unfold mem. rewrite existsb_exists. split.
  - intros [y [Hy He]]. apply String.eqb_eq in He. now subst.
  - intros H. exists x. split; [exact H | apply String.eqb_refl].
Qed.

Lemma index_app_last (x : string) (l : list string) :
  ~ In x l -> index x (l ++ [x]) = Returned (List.length l).
Proof.
  induction l as [|y l IH]; intros Hx; cbn [app index List.length].
  - now rewrite String.eqb_refl.
  - destruct (String.eqb_spec y x) as [->|_]; [exfalso; apply Hx; now left|].
    rewrite IH; [reflexivity | intros H; apply Hx; now right].
Qed.

Lemma index_app_inner (x y : string) (l : list string) :
  In x l ->
  exists i, index x (l ++ [y]) = Returned i /\ (i < List.length l)%nat.
Proof.
  induction l as [|z l IH]; intros Hx; [destruct Hx|].
  cbn [app index List.length].
  destruct (String.eqb_spec z x) as [->|Hne].
  - exists O. split; [reflexivity | lia].
  - destruct Hx as [Hx|Hx]; [congruence|].
    destruct (IH Hx) as [i [Hi Hlt]]. rewrite Hi.
    exists (S i). split; [reflexivity | lia].
Qed.

(** The first occurrence of the flag is the last argument: no value. *)
Lemma argument_after_last (x : string) (l : list string) :
  ~ In x l -> argument_after x (l ++ [x]) = Raised IndexError.
Proof.
  intros Hx. unfold argument_after, subscript. rewrite (index_app_last x l Hx).
  replace (nth_error (l ++ [x]) (List.length l + 1)) with (@None string);
    [reflexivity|].
  symmetry. apply nth_error_None. rewrite length_app. cbn. lia.
Qed.

(** The flag occurs earlier: the argument after that occurrence is taken. *)
Lemma argument_after_inner (x y : string) (l : list string) :
  In x l -> exists v, argument_after x (l ++ [y]) = Returned v.
Proof.
  intros Hx. destruct (index_app_inner x y l Hx) as [i [Hi Hlt]].
  unfold argument_after, subscript. rewrite Hi.
  destruct (nth_error (l ++ [y]) (i + 1)) as [v|] eqn:Hv; [now exists v|].
  apply nth_error_None in Hv. rewrite length_app in Hv. cbn in Hv. lia.
Qed.

Section MainFacts.

Variable fnmatch : string -> string -> bool.
Variable path_join : string -> string -> string.
Variable relpath : string -> string -> string.
Variable stat_size : string -> option Z.
Variable read_text : string -> option string.
Variable os_walk : string -> list (string * list string).
Variable win32 : bool.
Variable HERE : string.
Variable tree : string -> list string -> list string * outcome unit.
Variable same_file : string -> string -> bool.
Variable flushed : string -> string.

Local Abbreviation script :=
  (main fnmatch path_join relpath stat_size read_text os_walk win32 HERE tree
     same_file flushed).

Lemma long_enough (prog flag : string) (front : list string) :
  (Z.of_nat (List.length (prog :: front ++ [flag])) <? 2) = false.
Proof.
  apply Z.ltb_ge. cbn [List.length]. rewrite length_app. cbn [List.length]. lia.
Qed.

Lemma has_repo_path (prog flag : string) (front : list string) :
  exists repo_path, subscript (prog :: front ++ [flag]) 1 = Returned repo_path.
Proof. unfold subscript. destruct front; cbn; eauto. Qed.

(** C9 (amended): when the first occurrence of [-p], or of [-o], on the
    command line is its last argument, the script raises [IndexError]
    having printed and written nothing. *)
Theorem missing_flag_value_raises :
  forall (prog : string) (front : list string) (flag : string) (h : host),
    flag = "-p" \/ flag = "-o" ->
    ~ In flag (prog :: front) ->
    script (prog :: front ++ [flag]) h = (h, Raised IndexError).
Proof.
  intros prog front flag h Hflag Hfirst.
  pose proof (argument_after_last flag (prog :: front) Hfirst) as Hlast.
  cbn [app] in Hlast.
  destruct (has_repo_path prog flag front) as [repo_path Hrepo].
  unfold main. rewrite long_enough.
  unfold bind at 1. unfold lift at 1. rewrite Hrepo.
  destruct Hflag as [-> | ->].
  - unfold bind at 1.
    replace (mem "-p" (prog :: front ++ ["-p"])) with true.
    2:{ symmetry. apply mem_In. right. apply in_or_app. right. now left. }
    unfold bind at 1. unfold lift at 1. rewrite Hlast. reflexivity.
  - unfold bind at 1.
    assert (Hp : exists o,
              (if mem "-p" (prog :: front ++ ["-o"])
               then v <- lift (argument_after "-p" (prog :: front ++ ["-o"])) ;;
                    ret (Some v)
               else ret None) h = (h, Returned o)).
    { destruct (mem "-p" (prog :: front ++ ["-o"])) eqn:Hmem.
      - apply mem_In in Hmem.
        assert (Hin : In "-p" (prog :: front)).
        { destruct Hmem as [Hm|Hm]; [now left|].
          apply in_app_or in Hm. destruct Hm as [Hm|[Hm|[]]];
            [now right | discriminate]. }
        destruct (argument_after_inner "-p" "-o" (prog :: front) Hin) as [v Hv].
        cbn [app] in Hv. exists (Some v).
        unfold bind, lift, ret. now rewrite Hv.
      - now exists None. }
    destruct Hp as [o Hp]. rewrite Hp.
    unfold bind at 1.
    replace (mem "-o" (prog :: front ++ ["-o"])) with true.
    2:{ symmetry. apply mem_In. right. apply in_or_app. right. now left. }
    unfold lift at 1. rewrite Hlast. reflexivity.
Qed.

End MainFacts.

Lemma missing_flag_value_raises_witness :
  Demo.run ["loader.py"; "repo"; "-v"; "-p"] (mk_host [] [])
  = (mk_host [] [], Raised IndexError)
  /\ Demo.run ["loader.py"; "repo"; "-p"; "pre.txt"; "-o"] (mk_host [] [])
     = (mk_host [] [], Raised IndexError).
Proof.
  split.
  - apply (missing_flag_value_raises fnmatch_wild Demo.path_join Demo.relpath
             Demo.stat_size Demo.read_text Demo.os_walk false "/opt/loader"
             Demo.tree String.eqb (fun _ => EmptyString)
             "loader.py" ["repo"; "-v"] "-p" (mk_host [] [])).
    + now left.
    + simpl. intuition discriminate.
  - apply (missing_flag_value_raises fnmatch_wild Demo.path_join Demo.relpath
             Demo.stat_size Demo.read_text Demo.os_walk false "/opt/loader"
             Demo.tree String.eqb (fun _ => EmptyString)
             "loader.py" ["repo"; "-p"; "pre.txt"] "-o" (mk_host [] [])).
    + now right.
    + simpl. intuition discriminate.
Defined.

(** C9, as stated: every command line with [-p] as its last argument is
    said to fail with an index error.  When [-p] also occurs earlier, the
    value after that first occurrence is taken and the run completes. *)
Lemma repeated_flag_last_completes :
  Demo.run ["loader.py"; "repo"; "-p"; "pre.txt"; "-p"] (mk_host [] [])
  = (mk_host
       [("output.txt",
         "Files:" ++ nl ++ "----" ++ nl ++ "a.txt" ++ nl ++ "hello" ++ nl
         ++ "----" ++ nl ++ "big.bin" ++ nl ++ "0000" ++ nl
         ++ "----" ++ nl ++ "src/m.py" ++ nl ++ "import x" ++ nl ++ nl);
        ("output.txt",
         "Files:" ++ nl ++ "----" ++ nl ++ "a.txt" ++ nl ++ "hello" ++ nl
         ++ "----" ++ nl ++ "big.bin" ++ nl ++ "0000" ++ nl
         ++ "----" ++ nl ++ "src/m.py" ++ nl ++ "import x" ++ nl ++ nl
         ++ "--END--")]
       ["Repository contents written to output.txt."],
     Returned tt).
Proof. reflexivity. Qed.

Example usage_error :
  Demo.run ["loader.py"] (mk_host [] [])
  = (mk_host [] [usage], Raised (SystemExit 1)).
Proof. reflexivity. Qed.

Example split_run :
  written (fst (Demo.run ["loader.py"; "repo"; "-x"; "-s"; "-o"; "all.txt"]
                  (mk_host [] [])))
  = [("all.txt", default_preamble ++ "----" ++ nl ++ "a.txt" ++ nl ++ "hello" ++ nl
                 ++ "----" ++ nl ++ "src/m.py" ++ nl ++ "import x" ++ nl ++ nl);
     ("all.txt", default_preamble ++ "----" ++ nl ++ "a.txt" ++ nl ++ "hello" ++ nl
                 ++ "----" ++ nl ++ "src/m.py" ++ nl ++ "import x" ++ nl ++ nl
                 ++ "--END--");
     ("all_0.txt", default_preamble ++ "----" ++ nl ++ "a.txt" ++ nl ++ "hello" ++ nl
                   ++ "----" ++ nl ++ "src/m.py" ++ nl ++ "import x" ++ nl ++ nl
                   ++ "--END--")].
Proof. reflexivity. Qed.

(** * Further properties of the code *)

(** ** Pattern loader: what the entries look like *)

Lemma rstrip_cons (c : ascii) (s : string) :
  rstrip (String c s)
  = match rstrip s with
    | EmptyString => if isspace c then EmptyString else String c EmptyString
    | r => String c r
    end.
Proof. reflexivity. Qed.

Lemma rstrip_idempotent (s : string) : rstrip (rstrip s) = rstrip s.
Proof.
  induction s as [|c s IH]; [reflexivity|].
  rewrite rstrip_cons. destruct (rstrip s) as [|d r] eqn:Hr.
  - destruct (isspace c) eqn:Hc; [reflexivity|].
    rewrite rstrip_cons. cbn [rstrip]. now rewrite Hc.
  - rewrite rstrip_cons, IH. reflexivity.
Qed.

Lemma rstrip_head (c : ascii) (s : string) :
  isspace c = false -> rstrip (String c s) = String c (rstrip s).
Proof.
  intros Hc. cbn [rstrip]. destruct (rstrip s); [now rewrite Hc | reflexivity].
Qed.

Lemma lstrip_head (s : string) :
  lstrip s = "" \/ exists c t, lstrip s = String c t /\ isspace c = false.
Proof.
  induction s as [|c s IH]; [now left|].
  cbn [lstrip]. destruct (isspace c) eqn:Hc; [exact IH|].
  right. now exists c, s.
Qed.

Lemma strip_idempotent (s : string) : strip (strip s) = strip s.
Proof.
  unfold strip. destruct (lstrip_head s) as [-> | [c [t [-> Hc]]]].
  - reflexivity.
  - rewrite (rstrip_head c t Hc). cbn [lstrip]. rewrite Hc.
    rewrite <- (rstrip_head c t Hc). apply rstrip_idempotent.
Qed.

Lemma strip_first (s : string) (c : ascii) (t : string) :
  strip s = String c t -> isspace c = false.
Proof.
  unfold strip. destruct (lstrip_head s) as [-> | [d [u [-> Hd]]]].
  - discriminate.
  - rewrite (rstrip_head d u Hd). now intros [= <- _].
Qed.

Lemma rstrip_length (s : string) :
  (String.length (rstrip s) <= String.length s)%nat.
Proof.
  induction s as [|c s IH]; [apply Nat.le_refl|].
  cbn [rstrip]. destruct (rstrip s); [destruct (isspace c)|]; cbn in *; lia.
Qed.

Lemma rstrip_trailing_space (a : string) (c : ascii) :
  isspace c = true -> rstrip (a ++ String c "") = rstrip a.
Proof.
  intros Hc. induction a as [|d a IH]; cbn [append rstrip].
  - now rewrite Hc.
  - now rewrite IH.
Qed.

Lemma strip_last (s a : string) (c : ascii) :
  strip s = a ++ String c "" -> isspace c = false.
Proof.
  intros Hs. destruct (isspace c) eqn:Hc; [exfalso | reflexivity].
  assert (Hfix : rstrip (a ++ String c "") = a ++ String c "").
  { rewrite <- Hs. unfold strip. apply rstrip_idempotent. }
  rewrite (rstrip_trailing_space a c Hc) in Hfix.
  pose proof (rstrip_length a) as Hlen. rewrite Hfix, length_append in Hlen.
  cbn in Hlen. lia.
Qed.

(** X1: every entry returned by [get_ignore_list] is stripped: stripping it
    again changes nothing, its first character is not white space and
    neither is its last (so no entry keeps the newline of its line). *)
Theorem get_ignore_list_entries_stripped :
  forall (win32 : bool) (text entry : string),
    In entry (get_ignore_list win32 text) ->
    strip entry = entry
    /\ (forall c t, entry = String c t -> isspace c = false)
    /\ (forall a c, entry = a ++ String c "" -> isspace c = false).
Proof.
  intros win32 text entry Hin. unfold get_ignore_list in Hin.
  apply in_map_iff in Hin. destruct Hin as [line [<- _]].
  split; [apply strip_idempotent | split].
  - intros c t H. exact (strip_first _ c t H).
  - intros a c H. exact (strip_last _ a c H).
Qed.

Lemma get_ignore_list_entries_stripped_witness :
  strip "*.log" = "*.log".
Proof.
  apply (get_ignore_list_entries_stripped false
           ("build/" ++ nl ++ "  *.log  " ++ nl) "*.log").
  simpl. tauto.
Defined.

Lemma occurs_lstrip (c : ascii) (s : string) :
  occurs c (lstrip s) = true -> occurs c s = true.
Proof.
  induction s as [|d s IH]; [easy|].
  cbn [lstrip]. destruct (isspace d); [|easy].
  intros H. cbn [occurs]. rewrite (IH H). apply orb_true_r.
Qed.

Lemma occurs_rstrip (c : ascii) (s : string) :
  occurs c (rstrip s) = true -> occurs c s = true.
Proof.
  induction s as [|d s IH]; [easy|].
  cbn [rstrip occurs]. destruct (rstrip s) as [|e r].
  - destruct (isspace d); [discriminate|]. cbn [occurs].
    rewrite orb_false_r. intros ->. reflexivity.
  - cbn [occurs] in *. destruct (Ascii.eqb d c); [reflexivity|].
    cbn [orb]. exact IH.
Qed.

Lemma occurs_replace_char (s : string) :
  occurs "/" (replace_char "/" "\" s) = false.
Proof.
  induction s as [|d s IH]; [reflexivity|].
  cbn [replace_char occurs]. rewrite IH, orb_false_r.
  destruct (Ascii.eqb d "/") eqn:Hd; [reflexivity | exact Hd].
Qed.

Lemma occurs_Substring (c : ascii) (s : string) :
  Substring (String c "") s -> occurs c s = true.
Proof.
  intros [a [b ->]]. change (String c "" ++ b) with (String c b).
  induction a as [|d a IH]; cbn [append occurs].
  - now rewrite Ascii.eqb_refl.
  - rewrite IH. apply orb_true_r.
Qed.

(** X2: on win32 no entry returned by [get_ignore_list] contains a forward
    slash. *)
Theorem get_ignore_list_win32_no_slash :
  forall (text entry : string),
    In entry (get_ignore_list true text) -> ~ Substring "/" entry.
Proof.
  intros text entry Hin Hsub. unfold get_ignore_list in Hin.
  apply in_map_iff in Hin. destruct Hin as [line [<- _]].
  apply occurs_Substring in Hsub. unfold strip in Hsub.
  apply occurs_rstrip, occurs_lstrip in Hsub.
  now rewrite occurs_replace_char in Hsub.
Qed.

Lemma get_ignore_list_win32_no_slash_witness :
  ~ Substring "/" "src\gen".
Proof.
  apply (get_ignore_list_win32_no_slash ("src/gen" ++ nl ++ "*.log")).
  simpl. tauto.
Defined.

(** ** Ignore Matcher: composition and console *)

Lemma first_hit_app fnmatch verbose (x : string) (a b : list string) :
  fst (first_hit fnmatch verbose x (a ++ b))
  = fst (first_hit fnmatch verbose x a) || fst (first_hit fnmatch verbose x b).
Proof.
  induction a as [|p a IH]; [reflexivity|].
  cbn [app first_hit]. destruct (hits fnmatch x p); [reflexivity | exact IH].
Qed.

(** X3: the answer for two lists put together is the disjunction of the
    answers for each, so adding entries never turns an ignored path into a
    kept one. *)
Theorem should_ignore_app :
  forall (fnmatch : string -> string -> bool) (verbose : bool)
         (X : string) (L1 L2 : list string),
    fst (should_ignore fnmatch verbose X (L1 ++ L2))
    = fst (should_ignore fnmatch verbose X L1)
      || fst (should_ignore fnmatch verbose X L2).
Proof.
  intros. unfold should_ignore. rewrite filter_app. apply first_hit_app.
Qed.

(** X4: the answer depends only on which entries occur in the list, not on
    their order or on repetitions. *)
Theorem should_ignore_same_entries :
  forall (fnmatch : string -> string -> bool) (verbose : bool)
         (X : string) (L L' : list string),
    (forall P, In P L <-> In P L') ->
    fst (should_ignore fnmatch verbose X L)
    = fst (should_ignore fnmatch verbose X L').
Proof.
  intros fnmatch verbose X L L' Hsame.
  apply eq_true_iff_eq. rewrite !should_ignore_true.
  split; intros [P [HP H]]; exists P; (split; [now apply Hsame | exact H]).
Qed.

Lemma should_ignore_same_entries_witness :
  fst (should_ignore fnmatch_wild false "run.log" ["build"; "*.log"])
  = fst (should_ignore fnmatch_wild false "run.log" ["*.log"; "build"; "*.log"]).
Proof.
  apply (should_ignore_same_entries fnmatch_wild false "run.log"
           ["build"; "*.log"] ["*.log"; "build"; "*.log"]).
  intros P. simpl. tauto.
Defined.

Lemma first_hit_console fnmatch (x : string) (l : list string) :
  first_hit fnmatch false x l = (fst (first_hit fnmatch true x l), [])
  /\ (fst (first_hit fnmatch true x l) = false ->
      snd (first_hit fnmatch true x l) = [])
  /\ (fst (first_hit fnmatch true x l) = true ->
      exists pre P post,
        l = (pre ++ P :: post)%list
        /\ (forall Q, In Q pre -> hits fnmatch x Q = false)
        /\ hits fnmatch x P = true
        /\ snd (first_hit fnmatch true x l) = [ignoring x P]).
Proof.
  induction l as [|p l [IH1 [IH2 IH3]]]; cbn [first_hit].
  - repeat split; [discriminate].
  - destruct (hits fnmatch x p) eqn:Hp; cbn [fst snd].
    + repeat split; [discriminate|]. intros _.
      exists [], p, l. repeat split; [intros Q []| exact Hp].
    + split; [exact IH1 | split; [exact IH2|]]. intros Ht.
      destruct (IH3 Ht) as [pre [P [post [-> [Hpre [HP Hs]]]]]].
      exists (p :: pre), P, post. repeat split; try assumption.
      intros Q [<-|HQ]; [exact Hp | now apply Hpre].
Qed.

(** X5: the module-level [verbose] does not change the answer.  Without it
    [should_ignore] prints nothing; with it, nothing for a path that is not
    ignored and, for an ignored path, one line naming the first entry of the
    list, among those neither empty nor comments, that matches. *)
Theorem should_ignore_console :
  forall (fnmatch : string -> string -> bool) (X : string) (L : list string),
    should_ignore fnmatch false X L = (fst (should_ignore fnmatch true X L), [])
    /\ (fst (should_ignore fnmatch true X L) = false ->
        snd (should_ignore fnmatch true X L) = [])
    /\ (fst (should_ignore fnmatch true X L) = true ->
        exists pre P post,
          filter effective L = (pre ++ P :: post)%list
          /\ (forall Q, In Q pre -> hits fnmatch X Q = false)
          /\ hits fnmatch X P = true
          /\ snd (should_ignore fnmatch true X L)
             = ["ignoring " ++ X ++ " because it matches " ++ P]).
Proof.
  intros fnmatch X L. unfold should_ignore.
  exact (first_hit_console fnmatch X (filter effective L)).
Qed.

Lemma startswith_refl (p : string) : startswith p p = true.
Proof.
  induction p as [|c p IH]; [reflexivity|].
  cbn [startswith]. now rewrite Ascii.eqb_refl, IH.
Qed.

(** X6: the test [pattern == file_path] never decides: an entry equal to the
    path is already a fragment of it, so the loop body tests containment or
    a glob match. *)
Theorem equality_test_subsumed :
  forall (fnmatch : string -> string -> bool) (file_path pattern : string),
    hits fnmatch file_path pattern
    = contains pattern file_path || fnmatch file_path pattern.
Proof.
  intros fnmatch x p. unfold hits.
  destruct (String.eqb_spec p x) as [->|_].
  - assert (H : contains x x = true).
    { destruct x; cbn [contains]; now rewrite startswith_refl. }
    now rewrite H.
  - now rewrite orb_false_r.
Qed.

(** ** Repository Concatenator: failures, flags and console *)

Section ConcatenatorMore.

Variable fnmatch : string -> string -> bool.
Variable path_join : string -> string -> string.
Variable relpath : string -> string -> string.
Variable stat_size : string -> option Z.
Variable read_text : string -> option string.
Variable os_walk : string -> list (string * list string).

Variable repo_path : string.
Variable ignore_list : list string.
Variable exclude_large_files : bool.

Lemma emitted_prefix (g_verbose : bool) (pre rest : list (string * string)) :
  (forall f, In f pre ->
     included fnmatch g_verbose path_join relpath stat_size repo_path
       ignore_list exclude_large_files f = true ->
     readable path_join read_text f = true) ->
  emitted fnmatch g_verbose path_join relpath stat_size read_text repo_path
    ignore_list exclude_large_files (pre ++ rest)
  = (join (map (fun f => record_text (rel_of path_join relpath repo_path f)
                           (contents_of path_join read_text f))
               (filter (included fnmatch g_verbose path_join relpath stat_size
                          repo_path ignore_list exclude_large_files) pre))
     ++ fst (emitted fnmatch g_verbose path_join relpath stat_size read_text
               repo_path ignore_list exclude_large_files rest),
     snd (emitted fnmatch g_verbose path_join relpath stat_size read_text
            repo_path ignore_list exclude_large_files rest)).
Proof.
  unfold readable, contents_of. induction pre as [|f pre IH]; intros Hread.
  - cbn [app filter map]. now destruct (emitted _ _ _ _ _ _ _ _ _ rest).
  - cbn [app emitted filter].
    destruct (included fnmatch g_verbose path_join relpath stat_size repo_path
                ignore_list exclude_large_files f) eqn:Hf.
    + pose proof (Hread f (or_introl eq_refl) Hf) as Hr.
      destruct (read_text (path_join (fst f) (snd f))) as [contents|] eqn:Hc;
        [|discriminate].
      rewrite IH by (intros g Hg; apply Hread; now right).
      cbn [map]. rewrite join_cons, Hc, append_assoc. reflexivity.
    + apply IH. intros g Hg. apply Hread. now right.
Qed.

(** X7: when the walk reaches an included file that cannot be opened, the
    run raises [OSError] for that file; the sink then holds the Records of
    the included files before it and nothing of the files after it. *)
Theorem unreadable_file_aborts :
  forall (g_verbose verbose : bool) (pre post : list (string * string))
         (f : string * string) (w : io),
    walked os_walk repo_path = (pre ++ f :: post)%list ->
    (forall g, In g pre ->
       included fnmatch g_verbose path_join relpath stat_size repo_path
         ignore_list exclude_large_files g = true ->
       readable path_join read_text g = true) ->
    included fnmatch g_verbose path_join relpath stat_size repo_path
      ignore_list exclude_large_files f = true ->
    read_text (path_join (fst f) (snd f)) = None ->
    snd (process_repository fnmatch g_verbose path_join relpath stat_size
           read_text os_walk repo_path ignore_list verbose exclude_large_files w)
    = Raised (OSError (path_join (fst f) (snd f)))
    /\ sink (fst (process_repository fnmatch g_verbose path_join relpath
                    stat_size read_text os_walk repo_path ignore_list verbose
                    exclude_large_files w))
       = sink w ++
         join (map (fun g => record_text (rel_of path_join relpath repo_path g)
                               (contents_of path_join read_text g))
                   (filter (included fnmatch g_verbose path_join relpath
                              stat_size repo_path ignore_list
                              exclude_large_files) pre)).
Proof.
  intros g_verbose verbose pre post f w Hwalk Hpre Hf Hnone.
  rewrite process_repository_walked, Hwalk.
  destruct (process_files_emitted fnmatch g_verbose path_join relpath stat_size
              read_text repo_path ignore_list verbose exclude_large_files
              (pre ++ f :: post) w) as [Hs Ho].
  rewrite Hs, Ho, (emitted_prefix g_verbose pre (f :: post) Hpre).
  cbn [emitted fst snd]. rewrite Hf, Hnone. cbn [fst snd].
  now rewrite append_empty_r.
Qed.

Lemma included_any_verbose (g1 g2 : bool) (f : string * string) :
  included fnmatch g1 path_join relpath stat_size repo_path ignore_list
    exclude_large_files f
  = included fnmatch g2 path_join relpath stat_size repo_path ignore_list
      exclude_large_files f.
Proof.
  unfold included.
  assert (H : forall g x, fst (should_ignore fnmatch g x ignore_list)
                          = fst (should_ignore fnmatch true x ignore_list)).
  { intros [|] x; [reflexivity|].
    now rewrite (proj1 (should_ignore_console fnmatch x ignore_list)). }
  now rewrite (H g1), (H g2).
Qed.

Lemma emitted_any_verbose (g1 g2 : bool) (fs : list (string * string)) :
  emitted fnmatch g1 path_join relpath stat_size read_text repo_path
    ignore_list exclude_large_files fs
  = emitted fnmatch g2 path_join relpath stat_size read_text repo_path
      ignore_list exclude_large_files fs.
Proof.
  induction fs as [|f fs IH]; [reflexivity|].
  cbn [emitted]. unfold rel_of. now rewrite IH, (included_any_verbose g1 g2 f).
Qed.

Lemma process_file_silent (root file : string) (w : io) :
  console (fst (process_file fnmatch false path_join relpath stat_size
                  read_text repo_path ignore_list false exclude_large_files
                  root file w))
  = console w.
Proof.
  unfold process_file.
  destruct (exclude_large_files && path_exists stat_size (path_join root file)
            && too_large stat_size (path_join root file)); [reflexivity|].
  rewrite (proj1 (should_ignore_console fnmatch
                    (relpath (path_join root file) repo_path) ignore_list)).
  destruct (fst (should_ignore fnmatch true
                   (relpath (path_join root file) repo_path) ignore_list));
    cbn [negb]; unfold bind, prints, read_file; cbn [fst snd sink console].
  - now rewrite app_nil_r.
  - destruct (read_text (path_join root file)); cbn; now rewrite app_nil_r.
Qed.

Lemma process_files_silent (fs : list (string * string)) (w : io) :
  console (fst (process_files fnmatch false path_join relpath stat_size
                  read_text repo_path ignore_list false exclude_large_files
                  fs w))
  = console w.
Proof.
  unfold process_files. revert w. induction fs as [|f fs IH]; intros w.
  - reflexivity.
  - cbn [for_each]. unfold bind.
    pose proof (process_file_silent (fst f) (snd f) w) as Hf.
    destruct (process_file fnmatch false path_join relpath stat_size read_text
                repo_path ignore_list false exclude_large_files
                (fst f) (snd f) w) as [w' [[]|e]]; cbn [fst] in *.
    + now rewrite IH.
    + exact Hf.
Qed.

(** X8: the two verbose settings change the console only: the text written
    to the sink and the way the run ends are the same for all of them, and
    with both off the run prints nothing. *)
Theorem verbose_changes_console_only :
  forall (g1 v1 g2 v2 : bool) (w : io),
    sink (fst (process_repository fnmatch g1 path_join relpath stat_size
                 read_text os_walk repo_path ignore_list v1
                 exclude_large_files w))
    = sink (fst (process_repository fnmatch g2 path_join relpath stat_size
                   read_text os_walk repo_path ignore_list v2
                   exclude_large_files w))
    /\ snd (process_repository fnmatch g1 path_join relpath stat_size
              read_text os_walk repo_path ignore_list v1
              exclude_large_files w)
       = snd (process_repository fnmatch g2 path_join relpath stat_size
                read_text os_walk repo_path ignore_list v2
                exclude_large_files w)
    /\ console (fst (process_repository fnmatch false path_join relpath
                       stat_size read_text os_walk repo_path ignore_list false
                       exclude_large_files w))
       = console w.
Proof.
  intros g1 v1 g2 v2 w. rewrite !process_repository_walked.
  destruct (process_files_emitted fnmatch g1 path_join relpath stat_size
              read_text repo_path ignore_list v1 exclude_large_files
              (walked os_walk repo_path) w) as [Hs1 Ho1].
  destruct (process_files_emitted fnmatch g2 path_join relpath stat_size
              read_text repo_path ignore_list v2 exclude_large_files
              (walked os_walk repo_path) w) as [Hs2 Ho2].
  rewrite Hs1, Ho1, Hs2, Ho2, (emitted_any_verbose g1 g2).
  repeat split. apply process_files_silent.
Qed.

End ConcatenatorMore.

Lemma unreadable_file_aborts_witness :
  let run :=
    process_repository fnmatch_wild false Demo.path_join Demo.relpath
      Demo.stat_size (fun p => if String.eqb p "repo/a.txt" then Some "hello" else None)
      Demo.os_walk "repo" ["b.txt"] false true (mk_io "" []) in
  snd run = Raised (OSError "repo/src/m.py")
  /\ sink (fst run) = "----" ++ nl ++ "a.txt" ++ nl ++ "hello" ++ nl.
Proof.
  apply (unreadable_file_aborts fnmatch_wild Demo.path_join Demo.relpath
           Demo.stat_size
           (fun p => if String.eqb p "repo/a.txt" then Some "hello" else None)
           Demo.os_walk "repo" ["b.txt"] true false false
           [("repo", "a.txt"); ("repo", "b.txt"); ("repo", "big.bin")] []
           ("repo/src", "m.py") (mk_io "" [])).
  - reflexivity.
  - intros g Hg Hinc. simpl in Hg.
    destruct Hg as [<-|[<-|[<-|[]]]]; [reflexivity | discriminate Hinc | discriminate Hinc].
  - reflexivity.
  - reflexivity.
Defined.

(** ** Output Splitter: names, numbers and console *)

Lemma str_of_nat_injective (i j : nat) : str_of_nat i = str_of_nat j -> i = j.
Proof.
  unfold str_of_nat. intros H.
  apply (f_equal NilEmpty.uint_of_string) in H.
  rewrite !NilEmpty.usu in H. injection H as H.
  apply (f_equal Nat.of_uint) in H.
  now rewrite !DecimalNat.Unsigned.of_to in H.
Qed.

Lemma append_cancel_l (a x y : string) : a ++ x = a ++ y -> x = y.
Proof. induction a as [|c a IH]; cbn [append]; [easy | intros [= H]; auto]. Qed.

Lemma append_cancel_r (s x y : string) : x ++ s = y ++ s -> x = y.
Proof.
  revert y. induction x as [|c x IH]; intros [|d y] H; cbn [append] in H.
  - reflexivity.
  - apply (f_equal String.length) in H. cbn [String.length] in H.
    rewrite length_append in H. lia.
  - apply (f_equal String.length) in H. cbn [String.length] in H.
    rewrite length_append in H. lia.
  - injection H as -> H. now rewrite (IH y H).
Qed.

Lemma chunk_name_injective (file_path : string) (i j : nat) :
  chunk_name file_path i = chunk_name file_path j -> i = j.
Proof.
  unfold chunk_name. intros H.
  apply append_cancel_l, append_cancel_l in H.
  apply append_cancel_r in H. now apply str_of_nat_injective.
Qed.

Lemma length_substring_0 (n : nat) (s : string) :
  String.length (String.substring 0 n s) = Nat.min n (String.length s).
Proof.
  revert n. induction s as [|c s IH]; intros [|n]; cbn; try reflexivity.
  now rewrite IH.
Qed.

Lemma chunk_name_longer (file_path : string) (i : nat) :
  (String.length file_path < String.length (chunk_name file_path i))%nat.
Proof.
  unfold chunk_name, drop_last4.
  rewrite !length_append, length_substring_0. cbn [String.length]. lia.
Qed.

Lemma NoDup_map_injective {A B} (f : A -> B) (l : list A) :
  (forall x y, f x = f y -> x = y) -> NoDup l -> NoDup (map f l).
Proof.
  intros Hinj. induction 1 as [|x l Hx _ IH]; cbn [map]; constructor; auto.
  rewrite in_map_iff. intros [y [Hy Hin]]. apply Hinj in Hy. now subst.
Qed.

(** X9: the chunk files have pairwise different names, none of them the
    name of the input file: no chunk overwrites another chunk or the
    input. *)
Theorem chunk_names_distinct :
  forall (file_path text : string),
    NoDup (map fst (chunk_files file_path text))
    /\ ~ In file_path (map fst (chunk_files file_path text)).
Proof.
  intros file_path text. rewrite chunk_files_names. split.
  - apply NoDup_map_injective; [apply chunk_name_injective | apply seq_NoDup].
  - rewrite in_map_iff. intros [i [Hi _]].
    pose proof (chunk_name_longer file_path i) as Hlt. rewrite Hi in Hlt. lia.
Qed.

(** X10: when the input cannot be opened, [split_file] raises [OSError] for
    it, having written and printed nothing. *)
Theorem split_file_unreadable :
  forall (read_text : string -> option string) (file_path : string) (h : host),
    newest file_path (written h) = None ->
    read_text file_path = None ->
    split_file read_text file_path h = (h, Raised (OSError file_path)).
Proof.
  intros read_text file_path h Hnew Hread.
  unfold split_file, bind, open_read. now rewrite Hnew, Hread.
Qed.

Lemma split_file_unreadable_witness :
  split_file Demo.read_text "missing.txt" (mk_host [("output.txt", "x")] ["done"])
  = (mk_host [("output.txt", "x")] ["done"], Raised (OSError "missing.txt")).
Proof.
  apply (split_file_unreadable Demo.read_text "missing.txt"
           (mk_host [("output.txt", "x")] ["done"])); reflexivity.
Defined.

Lemma no_delimiter_fold (lines : list string) (st : splitter) :
  Forall (fun line => startswith "----" line = false) lines ->
  fold_left split_step lines st
  = mk_splitter (chunks st) (chunk st ++ join lines)
      (chunk_size st + len (join lines)).
Proof.
  intros H. revert st. induction H as [|line lines Hline _ IH]; intros st.
  - cbn [fold_left join String.concat]. destruct st as [cs c n]; cbn.
    rewrite append_empty_r. f_equal. unfold len. cbn. lia.
  - cbn [fold_left]. rewrite IH, (split_step_plain st line Hline).
    cbn [chunks chunk chunk_size]. rewrite join_cons, len_append, append_assoc.
    f_equal. lia.
Qed.

(** X11: an input in which no line begins with four hyphens is written back
    as a single chunk file, whatever its size. *)
Theorem no_delimiter_one_chunk :
  forall (file_path text : string),
    Forall (fun line => startswith "----" line = false) (lines_of text) ->
    chunk_files file_path text = [(chunk_name file_path 0, text)].
Proof.
  intros file_path text H. unfold chunk_files, split_chunks.
  rewrite (no_delimiter_fold _ _ H). cbn. now rewrite join_lines_of.
Qed.

Lemma no_delimiter_one_chunk_witness :
  chunk_files "notes.txt" ("to do" ++ nl ++ "--- later" ++ nl)
  = [("notes_0.txt", "to do" ++ nl ++ "--- later" ++ nl)].
Proof.
  apply (no_delimiter_one_chunk "notes.txt" ("to do" ++ nl ++ "--- later" ++ nl)).
  repeat constructor.
Defined.

Lemma len_join_large (b : Z) (l : list string) :
  0 <= b -> Forall (fun c => b < len c) l ->
  Z.of_nat (List.length l) * (b + 1) <= len (join l).
Proof.
  intros Hb H. induction H as [|c l Hc _ IH]; [cbn; lia|].
  rewrite join_cons, len_append. cbn [List.length]. lia.
Qed.

(** X12: [k] chunk files need an input of at least [(k - 1) * 4,000,001]
    characters: the number of chunk files is at most one more than the
    number of times 4,000,001 goes into the length of the input. *)
Theorem chunk_count_bounded :
  forall (file_path text : string),
    (Z.of_nat (List.length (chunk_files file_path text)) - 1) * 4000001
    <= len text.
Proof.
  intros file_path text.
  rewrite <- (length_map snd), chunk_files_contents, split_chunks_groups.
  assert (Ht : len text = len (join (map join (split_groups (lines_of text))))).
  { now rewrite join_concat, concat_split_groups, join_lines_of. }
  rewrite Ht. unfold split_groups.
  pose proof (grouped_fold (lines_of text) _ grouped_init) as [_ Hlarge _].
  set (st := fold_left group_step (lines_of text) (mk_grouper [] [] 0)) in *.
  rewrite map_app, join_app, len_append, length_app. cbn [map List.length].
  assert (H : Z.of_nat (List.length (map join (groups st))) * (SPLIT_SIZE + 1)
              <= len (join (map join (groups st)))).
  { apply len_join_large; [unfold SPLIT_SIZE; lia|].
    apply Forall_map. exact Hlarge. }
  pose proof (len_nonneg (join [join (group st)])) as Hlast.
  unfold SPLIT_SIZE in H. lia.
Qed.

Lemma lines_of_nonempty (text : string) :
  Forall (fun line => line <> "") (lines_of text).
Proof.
  induction text as [|c text IH]; [constructor|].
  cbn [lines_of]. destruct (Ascii.eqb c LF).
  - constructor; [discriminate | exact IH].
  - destruct (lines_of text) as [|l ls]; constructor;
      try discriminate; try constructor. now inversion IH.
Qed.

Lemma group_step_last (st : grouper) (line : string) :
  exists g, group (group_step st line) = (g ++ [line])%list.
Proof.
  unfold group_step.
  destruct (startswith (repeat_char "-" 4) line);
    [destruct (group_size st >? SPLIT_SIZE)|]; cbn [group]; eauto.
Qed.

Lemma append_nonempty_r (a b : string) : b <> "" -> a ++ b <> "".
Proof. destruct a; [easy | discriminate]. Qed.

(** X13: a non-empty input never gives an empty chunk file. *)
Theorem no_empty_chunk :
  forall (file_path text name chunk : string),
    text <> "" ->
    In (name, chunk) (chunk_files file_path text) ->
    chunk <> "".
Proof.
  intros file_path text name chunk Htext Hin.
  assert (Hc : In chunk (split_chunks (lines_of text))).
  { rewrite <- (chunk_files_contents file_path text).
    apply in_map_iff. now exists (name, chunk). }
  rewrite split_chunks_groups in Hc. unfold split_groups in Hc.
  rewrite map_app in Hc. apply in_app_or in Hc. destruct Hc as [Hc|[<-|[]]].
  - pose proof (grouped_fold (lines_of text) _ grouped_init) as [_ Hlarge _].
    apply in_map_iff in Hc. destruct Hc as [g [<- Hg]].
    rewrite Forall_forall in Hlarge. specialize (Hlarge g Hg).
    intros He. rewrite He in Hlarge. unfold SPLIT_SIZE in Hlarge. cbn in Hlarge. lia.
  - pose proof (lines_of_nonempty text) as Hne.
    destruct (lines_of text) as [|l ls] eqn:Hl using rev_ind.
    + exfalso. apply Htext. rewrite <- (join_lines_of text), Hl. reflexivity.
    + rewrite fold_left_app. cbn [fold_left].
      destruct (group_step_last
                  (fold_left group_step ls (mk_grouper [] [] 0)) l) as [g ->].
      rewrite join_app. apply append_nonempty_r.
      apply Forall_app in Hne. destruct Hne as [_ Hne]. now inversion Hne.
Qed.

Lemma no_empty_chunk_witness :
  In ("output_0.txt", Demo.output_text)
     (chunk_files "output.txt" Demo.output_text)
  /\ Demo.output_text <> "".
Proof.
  assert (Hin : In ("output_0.txt", Demo.output_text)
                   (chunk_files "output.txt" Demo.output_text)) by now left.
  split; [exact Hin|].
  apply (no_empty_chunk "output.txt" Demo.output_text "output_0.txt"
           Demo.output_text); [discriminate | exact Hin].
Defined.

Lemma chunk_loop (file_path : string) (l : list string) (i : nat) (h : host) :
  for_each (enumerate_from i l)
    (fun '(i, chunk) =>
       write_file (chunk_name file_path i) chunk ;;
       say ("Chunk " ++ str_of_nat i ++ " written to " ++ chunk_name file_path i))
    h
  = (mk_host
       (written h ++ map (fun '(i, chunk) => (chunk_name file_path i, chunk))
                         (enumerate_from i l))
       (screen h ++ map (chunk_notice file_path) (seq i (List.length l))),
     Returned tt).
Proof.
  set (body := fun '(i, chunk) =>
        write_file (chunk_name file_path i) chunk ;;
        say ("Chunk " ++ str_of_nat i ++ " written to " ++ chunk_name file_path i)).
  revert i h. induction l as [|c l IH]; intros i h.
  - cbn. rewrite !app_nil_r. now destruct h.
  - cbn [enumerate_from for_each map List.length seq]. unfold bind.
    assert (Hb : body (i, c) h
                 = (mk_host (written h ++ [(chunk_name file_path i, c)])
                      (screen h ++ [chunk_notice file_path i]),
                    Returned tt)) by reflexivity.
    rewrite Hb, IH. cbn [written screen]. now rewrite <- !app_assoc.
Qed.

(** X14: on a readable input [split_file] prints one line per chunk file,
    in the order of the indices, naming the index and the file, and then
    the closing line. *)
Theorem split_file_console :
  forall (read_text : string -> option string) (file_path text : string)
         (h : host),
    open_read read_text file_path h = (h, Returned text) ->
    screen (fst (split_file read_text file_path h))
    = (screen h
       ++ map (chunk_notice file_path)
              (seq 0 (List.length (chunk_files file_path text)))
       ++ ["All chunks written."])%list.
Proof.
  intros read_text file_path text h Hopen.
  unfold split_file. unfold bind at 1. rewrite Hopen.
  unfold bind at 1. rewrite chunk_loop. cbn [say fst screen].
  unfold chunk_files. rewrite length_map.
  rewrite <- (length_map fst (enumerate_from 0 _)), enumerate_from_fst, length_seq.
  now rewrite <- app_assoc.
Qed.

Lemma split_file_console_witness :
  screen (fst (split_file (fun _ => None) "output.txt"
                 (mk_host [("output.txt", Demo.output_text)] [])))
  = ["Chunk 0 written to output_0.txt"; "All chunks written."].
Proof.
  exact (split_file_console (fun _ => None) "output.txt" Demo.output_text
           (mk_host [("output.txt", Demo.output_text)] []) eq_refl).
Defined.

(** ** The script as a whole *)




Section MainMore.

Variable fnmatch : string -> string -> bool.
Variable path_join : string -> string -> string.
Variable relpath : string -> string -> string.
Variable stat_size : string -> option Z.
Variable read_text : string -> option string.
Variable os_walk : string -> list (string * list string).
Variable win32 : bool.
Variable HERE : string.
Variable tree : string -> list string -> list string * outcome unit.
Variable same_file : string -> string -> bool.
Variable flushed : string -> string.

Local Abbreviation script :=
  (main fnmatch path_join relpath stat_size read_text os_walk win32 HERE tree
     same_file flushed).







End MainMore.


(** ** Tree Renderer *)

Lemma inner_unfold fnmatch g_verbose limit ignore_files
    (name path : string) (all : list entry) (prefix : string) (level : Z) :
  inner fnmatch g_verbose limit ignore_files (Dir name path all) prefix level
  = if level =? 0 then []
    else inner_loop fnmatch g_verbose limit ignore_files
           (inner fnmatch g_verbose limit ignore_files) prefix level
           all (pointers (listed limit all)).
Proof. reflexivity. Qed.

(** Induction on a tree, with the property known of the entries of a
    directory. *)
Lemma entry_induction (P : entry -> Prop) :
  (forall name path, P (File name path)) ->
  (forall name path all, Forall P all -> P (Dir name path all)) ->
  forall e, P e.
Proof.
  intros Hfile Hdir. fix IH 1. intros [name path | name path all].
  - apply Hfile.
  - apply Hdir. induction all as [|c all IHall]; constructor.
    + apply IH.
    + exact IHall.
Qed.

Lemma listing_run_say (n : nat) (msg : string) (acts : list action) (t : tally) :
  listing_run n (Say msg :: acts) t
  = listing_run n acts (mk_tally (shown t ++ [msg]) (directories t) (files t)).
Proof. destruct n; reflexivity. Qed.

Lemma listing_run_count_dir (n : nat) (acts : list action) (t : tally) :
  listing_run n (CountDir :: acts) t
  = listing_run n acts (mk_tally (shown t) (S (directories t)) (files t)).
Proof. destruct n; reflexivity. Qed.

Lemma listing_run_count_file (n : nat) (acts : list action) (t : tally) :
  listing_run n (CountFile :: acts) t
  = listing_run n acts (mk_tally (shown t) (directories t) (S (files t))).
Proof. destruct n; reflexivity. Qed.

Lemma listing_run_yield (n : nat) (line : string) (acts : list action)
    (t : tally) :
  listing_run (S n) (Yield line :: acts) t
  = listing_run n acts (mk_tally (shown t ++ [line]) (directories t) (files t)).
Proof. reflexivity. Qed.

(** What the two steps leave: the counters stand at the numbers of
    directories and files among the first [n] entries, a further line is
    found exactly when there are more than [n] entries, and without lines
    of [should_ignore] the console has grown by the first [n] lines. *)
Lemma listing_run_paced (loud : bool) (acts : list action) :
  paced loud acts ->
  forall (n : nat) (t : tally),
    let '(more, _, t') := listing_run n acts t in
    directories t' = (directories t + count_dirs (firstn n (entries_of acts)))%nat
    /\ files t' = (files t + count_files (firstn n (entries_of acts)))%nat
    /\ (match more with
        | Some line => line <> "" /\ (n < List.length (entries_of acts))%nat
        | None => (List.length (entries_of acts) <= n)%nat
        end)
    /\ (loud = false ->
        shown t' = (shown t ++ map fst (firstn n (entries_of acts)))%list).
Proof.
  unfold count_dirs, count_files.
  induction 1 as [|msg acts Hloud _ IH|line acts Hline _ IH|line acts Hline _ IH];
    intros n t.
  - destruct n; cbn; rewrite ?app_nil_r; repeat split; lia.
  - rewrite listing_run_say. specialize (IH n (mk_tally (shown t ++ [msg])
                                                 (directories t) (files t))).
    destruct (listing_run n acts _) as [[more rest] t'].
    cbn [entries_of directories files shown] in *.
    destruct IH as [Hd [Hf [Hm _]]]. repeat split; try assumption.
    intros Hq. congruence.
  - destruct n as [|n].
    + cbn. rewrite app_nil_r. repeat split; try lia. exact Hline.
    + rewrite listing_run_yield, listing_run_count_dir.
      specialize (IH n (mk_tally (shown t ++ [line]) (S (directories t)) (files t))).
      destruct (listing_run n acts _) as [[more rest] t'].
      cbn [entries_of firstn filter snd negb List.length map fst
           directories files shown] in *.
      destruct IH as [Hd [Hf [Hm Hs]]]. repeat split; try lia.
      * destruct more; [split; [tauto | lia] | lia].
      * intros Hq. rewrite (Hs Hq), <- app_assoc. reflexivity.
  - destruct n as [|n].
    + cbn. rewrite app_nil_r. repeat split; try lia. exact Hline.
    + rewrite listing_run_yield, listing_run_count_file.
      specialize (IH n (mk_tally (shown t ++ [line]) (directories t) (S (files t)))).
      destruct (listing_run n acts _) as [[more rest] t'].
      cbn [entries_of firstn filter snd negb List.length map fst
           directories files shown] in *.
      destruct IH as [Hd [Hf [Hm Hs]]]. repeat split; try lia.
      * destruct more; [split; [tauto | lia] | lia].
      * intros Hq. rewrite (Hs Hq), <- app_assoc. reflexivity.
Qed.

Lemma paced_app (loud : bool) (a b : list action) :
  paced loud a -> paced loud b -> paced loud (a ++ b).
Proof.
  induction 1; intros Hb; cbn [app]; try (constructor; auto); exact Hb.
Qed.

Lemma entries_of_app (loud : bool) (a b : list action) :
  paced loud a -> entries_of (a ++ b) = (entries_of a ++ entries_of b)%list.
Proof.
  induction 1 as [|msg a _ _ IH|line a _ _ IH|line a _ _ IH];
    cbn [app entries_of]; [reflexivity | exact IH | now rewrite IH..].
Qed.

Lemma colorize_said fnmatch (g_verbose : bool) ignore_files (e : entry)
    (said : list action) (name : string) :
  colorize fnmatch g_verbose ignore_files e = (said, name) ->
  (g_verbose = false -> said = [])
  /\ exists msgs, said = map Say msgs.
Proof.
  unfold colorize.
  destruct (should_ignore fnmatch g_verbose (entry_path e) ignore_files)
    as [ignored msgs] eqn:Hs.
  intros [= <- _]. split; [|now exists msgs].
  intros ->.
  rewrite (proj1 (should_ignore_console fnmatch (entry_path e) ignore_files)) in Hs.
  now injection Hs as _ <-.
Qed.

Lemma paced_colorize fnmatch (g_verbose : bool) ignore_files (e : entry)
    (said acts : list action) (name : string) :
  colorize fnmatch g_verbose ignore_files e = (said, name) ->
  paced g_verbose acts -> paced g_verbose (said ++ acts).
Proof.
  intros Hc Hacts. destruct (colorize_said _ _ _ _ _ _ Hc) as [Hquiet [msgs ->]].
  destruct g_verbose.
  - clear Hc Hquiet. induction msgs as [|m msgs IH]; cbn [map app].
    + exact Hacts.
    + apply paced_say; [reflexivity | exact IH].
  - now rewrite (Hquiet eq_refl).
Qed.

Lemma pointers_nonempty (contents : list entry) :
  Forall (fun p => p <> "") (pointers contents).
Proof.
  unfold pointers. apply Forall_app. split.
  - apply Forall_forall. intros p Hp. apply repeat_spec in Hp. now subst.
  - now repeat constructor.
Qed.

Lemma line_nonempty (prefix pointer name : string) :
  pointer <> "" -> prefix ++ pointer ++ name <> "".
Proof.
  intros Hp. apply append_nonempty_r. destruct pointer; [easy | discriminate].
Qed.

Lemma inner_loop_paced fnmatch (g_verbose limit : bool) ignore_files
    (rec : entry -> string -> Z -> list action) (prefix : string) (level : Z)
    (l : list entry) :
  Forall (fun e => forall prefix level, paced g_verbose (rec e prefix level)) l ->
  forall ps, Forall (fun p => p <> "") ps ->
  paced g_verbose
    (inner_loop fnmatch g_verbose limit ignore_files rec prefix level l ps).
Proof.
  induction 1 as [|e l He _ IH]; intros ps Hps; cbn [inner_loop].
  - constructor.
  - destruct (limit && negb (is_dir e)); [now apply IH|].
    destruct ps as [|pointer ps]; [constructor|].
    inversion Hps as [|? ? Hp Hps']; subst.
    apply paced_app; [|now apply IH].
    destruct (is_dir e).
    + destruct (colorize fnmatch g_verbose ignore_files e) as [said name] eqn:Hc.
      apply (paced_colorize _ _ _ _ _ _ _ Hc).
      cbn [app]. constructor; [now apply line_nonempty | apply He].
    + destruct (negb limit); [|constructor].
      destruct (colorize fnmatch g_verbose ignore_files e) as [said name] eqn:Hc.
      apply (paced_colorize _ _ _ _ _ _ _ Hc).
      constructor; [now apply line_nonempty | constructor].
Qed.

(** Each [yield] of the generator is followed by its increment. *)
Lemma inner_paced fnmatch (g_verbose limit : bool) ignore_files (e : entry) :
  forall prefix level,
    paced g_verbose (inner fnmatch g_verbose limit ignore_files e prefix level).
Proof.
  induction e as [name path | name path all IH] using entry_induction;
    intros prefix level.
  - cbn [inner]. destruct (level =? 0); constructor.
  - rewrite inner_unfold. destruct (level =? 0); [constructor|].
    apply inner_loop_paced; [exact IH | apply pointers_nonempty].
Qed.

(** X16: the listing of a directory, at the time the script asks for it,
    is the name of the directory, the first [length_limit] lines of the
    generator, a notice when the generator has more lines than that, and
    the summary.  The summary counts the directories and files among the
    lines printed, not those of the whole tree. *)
Theorem tree_prints_and_counts :
  forall (fnmatch : string -> string -> bool) (limit_to_directories : bool)
         (ignore_files : list string) (dir_path : entry) (level : Z)
         (length_limit : nat),
    is_dir dir_path = true ->
    let found :=
      entries_of (inner fnmatch false limit_to_directories ignore_files
                    dir_path "" level) in
    let printed := firstn length_limit found in
    tree_of fnmatch false limit_to_directories ignore_files dir_path level
      length_limit
    = (List.app (entry_name dir_path :: map fst printed)
         (List.app
            (if (length_limit <? List.length found)%nat
             then [cut_notice length_limit] else [])
            [summary (count_dirs printed) (count_files printed)]),
       Returned tt).
Proof.
  intros fnmatch limit ignore_files dir_path level n Hdir found printed.
  unfold tree_of. rewrite Hdir. cbn [negb andb].
  pose proof (listing_run_paced false _
                (inner_paced fnmatch false limit ignore_files dir_path "" level)
                n (mk_tally [entry_name dir_path] 0 0)) as Hrun.
  unfold listing_run in Hrun. fold found in Hrun.
  destruct (print_islice n _ _) as [rest t1].
  destruct (resume rest t1) as [[more rest'] t2].
  cbn [directories files shown] in Hrun.
  destruct Hrun as [Hd [Hf [Hmore Hshown]]].
  specialize (Hshown eq_refl). fold printed in Hd, Hf, Hshown.
  destruct more as [line|].
  - destruct Hmore as [Hline Hlt].
    apply String.eqb_neq in Hline. rewrite Hline. cbn [negb shown directories files].
    apply Nat.ltb_lt in Hlt. rewrite Hlt, Hshown, Hd, Hf.
    cbn [app]. rewrite <- ?app_assoc. reflexivity.
  - apply Nat.ltb_ge in Hmore. rewrite Hmore, Hshown, Hd, Hf.
    cbn [app]. rewrite <- ?app_assoc. reflexivity.
Qed.

Lemma tree_prints_and_counts_witness :
  tree_of fnmatch_wild false false ["b.txt"] sample_tree (-1) 2
  = (["repo"; tee ++ "a.txt"; tee ++ "src"; cut_notice 2;
      nl ++ "1 directories, 1 files"],
     Returned tt).
Proof.
  exact (tree_prints_and_counts fnmatch_wild false ["b.txt"] sample_tree (-1) 2
           eq_refl).
Defined.

Lemma entries_of_said fnmatch (g_verbose : bool) ignore_files (e : entry)
    (said acts : list action) (name : string) :
  colorize fnmatch g_verbose ignore_files e = (said, name) ->
  entries_of (said ++ acts) = entries_of acts.
Proof.
  intros Hc. destruct (colorize_said _ _ _ _ _ _ Hc) as [_ [msgs ->]].
  clear Hc. induction msgs as [|m msgs IH]; [reflexivity | exact IH].
Qed.

Lemma length_pointers (contents : list entry) :
  (List.length contents <= List.length (pointers contents))%nat.
Proof. unfold pointers. rewrite length_app, repeat_length. cbn. lia. Qed.

Lemma reached_dir (level : Z) (name path : string) (all : list entry) :
  level <> 0 ->
  reached level (Dir name path all)
  = flat_map (fun c => c :: reached (level - 1) c) all.
Proof.
  intros Hl. unfold reached. destruct (Z.ltb_spec level 0) as [Hneg|Hpos].
  - replace (level - 1 <? 0) with true by (symmetry; apply Z.ltb_lt; lia).
    reflexivity.
  - replace (level - 1 <? 0) with false by (symmetry; apply Z.ltb_ge; lia).
    replace (Z.to_nat level) with (S (Z.to_nat (level - 1))) by lia.
    reflexivity.
Qed.

Lemma reached_file (level : Z) (name path : string) :
  reached level (File name path) = [].
Proof. unfold reached. destruct (level <? 0); [|destruct (Z.to_nat level)]; reflexivity. Qed.

Lemma inner_loop_shows fnmatch (g_verbose : bool) ignore_files
    (prefix : string) (level : Z) (l : list entry) :
  Forall (fun e => forall prefix level,
            Forall2 (shows fnmatch g_verbose ignore_files)
              (entries_of (inner fnmatch g_verbose false ignore_files e
                             prefix level))
              (reached level e)) l ->
  forall ps, (List.length l <= List.length ps)%nat ->
  Forall2 (shows fnmatch g_verbose ignore_files)
    (entries_of (inner_loop fnmatch g_verbose false ignore_files
                   (inner fnmatch g_verbose false ignore_files)
                   prefix level l ps))
    (flat_map (fun c => c :: reached (level - 1) c) l).
Proof.
  induction 1 as [|e l He _ IH]; intros ps Hps; cbn [inner_loop flat_map].
  - constructor.
  - cbn [andb]. destruct ps as [|pointer ps]; [cbn in Hps; lia|].
    cbn [List.length] in Hps.
    assert (Hrest := IH ps ltac:(lia)).
    destruct (colorize fnmatch g_verbose ignore_files e) as [said name] eqn:Hc.
    assert (Hname : name = snd (colorize fnmatch g_verbose ignore_files e))
      by now rewrite Hc.
    destruct e as [n p | n p all]; cbn [is_dir negb].
    + rewrite reached_file. cbn [app]. rewrite <- app_assoc.
      rewrite (entries_of_said _ _ _ _ _ _ _ Hc). cbn [entries_of app].
      constructor; [|exact Hrest].
      split; [reflexivity|]. exists (prefix ++ pointer).
      cbn [fst]. now rewrite append_assoc, Hname.
    + rewrite <- app_assoc.
      rewrite (entries_of_said _ _ _ _ _ _ _ Hc). cbn [entries_of app].
      rewrite (entries_of_app g_verbose) by apply inner_paced.
      constructor.
      * split; [reflexivity|]. exists (prefix ++ pointer).
        cbn [fst]. now rewrite append_assoc, Hname.
      * apply Forall2_app; [apply He | exact Hrest].
Qed.

(** X17: without [limit_to_directories] the generator has one line for
    each entry below the directory, down to the depth [level] or with no
    bound for a negative [level]: in the order in which a directory comes
    before its own entries, each line ending with the name of its entry
    and counted as a directory or as a file as its entry is one. *)
Theorem inner_lists_every_entry :
  forall (fnmatch : string -> string -> bool) (g_verbose : bool)
         (ignore_files : list string) (dir_path : entry)
         (prefix : string) (level : Z),
    Forall2 (shows fnmatch g_verbose ignore_files)
      (entries_of (inner fnmatch g_verbose false ignore_files dir_path
                     prefix level))
      (reached level dir_path).
Proof.
  intros fnmatch g_verbose ignore_files dir_path.
  induction dir_path as [name path | name path all IH] using entry_induction;
    intros prefix level.
  - rewrite reached_file. cbn [inner]. destruct (level =? 0); constructor.
  - rewrite inner_unfold. destruct (Z.eqb_spec level 0) as [->|Hl].
    + constructor.
    + rewrite (reached_dir level name path all Hl).
      apply inner_loop_shows; [exact IH|]. apply length_pointers.
Qed.

Lemma shows_counts fnmatch (g_verbose : bool) ignore_files
    (es : list (string * bool)) (l : list entry) :
  Forall2 (shows fnmatch g_verbose ignore_files) es l ->
  List.length es = List.length l
  /\ count_dirs es = List.length (filter is_dir l)
  /\ count_files es = List.length (filter (fun e => negb (is_dir e)) l)
  /\ Forall2 (fun line e =>
                exists before,
                  line = before ++ snd (colorize fnmatch g_verbose ignore_files e))
             (map fst es) l.
Proof.
  unfold count_dirs, count_files.
  induction 1 as [|le e es l [Hkind Hline] _ [IH1 [IH2 [IH3 IH4]]]].
  - repeat split. constructor.
  - cbn [List.length filter map]. rewrite Hkind.
    destruct (is_dir e); cbn [negb List.length]; repeat split; try lia.
    + now constructor.
    + now constructor.
Qed.

(** X18: with the module-level [verbose] off and without
    [limit_to_directories], as at the script's one call of [tree] (line 174,
    before line 177 can set [verbose]): when the cap is not reached, the
    listing of a directory has one line per entry below it down to the
    depth, each ending with the name of its entry, no notice, and a summary
    that counts the directories and the files among those entries. *)
Theorem tree_counts_all_when_uncut :
  forall (fnmatch : string -> string -> bool) (ignore_files : list string)
         (dir_path : entry) (level : Z) (length_limit : nat),
    is_dir dir_path = true ->
    (List.length (reached level dir_path) <= length_limit)%nat ->
    exists lines,
      tree_of fnmatch false false ignore_files dir_path level length_limit
      = (List.app (entry_name dir_path :: lines)
           [summary (List.length (filter is_dir (reached level dir_path)))
                    (List.length (filter (fun e => negb (is_dir e))
                                    (reached level dir_path)))],
         Returned tt)
      /\ Forall2 (fun line e =>
                    exists before,
                      line = before ++ snd (colorize fnmatch false ignore_files e))
                 lines (reached level dir_path).
Proof.
  intros fnmatch ignore_files dir_path level n Hdir Hfit.
  pose proof (inner_lists_every_entry fnmatch false ignore_files dir_path ""
                level) as Hall.
  destruct (shows_counts _ _ _ _ _ Hall) as [Hlen [Hd [Hf Hlines]]].
  exists (map fst (entries_of (inner fnmatch false false ignore_files
                                 dir_path "" level))).
  split; [|exact Hlines].
  rewrite (tree_prints_and_counts fnmatch false ignore_files dir_path level n Hdir).
  cbv zeta. rewrite firstn_all2 by lia.
  replace (n <? _)%nat with false by (symmetry; apply Nat.ltb_ge; lia).
  now rewrite Hd, Hf.
Qed.

Lemma tree_counts_all_when_uncut_witness :
  exists lines,
    tree_of fnmatch_wild false false ["b.txt"] sample_tree 3 1000
    = (List.app ("repo" :: lines) [nl ++ "2 directories, 4 files"], Returned tt)
    /\ List.length lines = 6%nat.
Proof.
  assert (Hfit : (List.length (reached 3 sample_tree) <= 1000)%nat)
    by (vm_compute; lia).
  destruct (tree_counts_all_when_uncut fnmatch_wild ["b.txt"] sample_tree 3 1000
              eq_refl Hfit) as [lines [Htree Hlines]].
  exists lines. split; [exact Htree|].
  apply Forall2_length in Hlines. exact Hlines.
Defined.

Lemma inner_loop_dirs_only fnmatch (g_verbose : bool) ignore_files
    (prefix : string) (level : Z) (l : list entry) :
  Forall (fun e => forall prefix level,
            Forall (fun le => snd le = true)
              (entries_of (inner fnmatch g_verbose true ignore_files e
                             prefix level))) l ->
  forall ps,
  Forall (fun le => snd le = true)
    (entries_of (inner_loop fnmatch g_verbose true ignore_files
                   (inner fnmatch g_verbose true ignore_files)
                   prefix level l ps)).
Proof.
  induction 1 as [|e l He _ IH]; intros ps; cbn [inner_loop].
  - constructor.
  - destruct (is_dir e) eqn:Hdir; cbn [andb negb]; [|apply IH].
    destruct ps as [|pointer ps]; [constructor|].
    destruct (colorize fnmatch g_verbose ignore_files e) as [said name] eqn:Hc.
    rewrite <- app_assoc, (entries_of_said _ _ _ _ _ _ _ Hc).
    cbn [entries_of app].
    rewrite (entries_of_app g_verbose) by apply inner_paced.
    constructor; [reflexivity|]. apply Forall_app. split; [apply He | apply IH].
Qed.

Lemma inner_dirs_only fnmatch (g_verbose : bool) ignore_files (e : entry) :
  forall prefix level,
    Forall (fun le => snd le = true)
      (entries_of (inner fnmatch g_verbose true ignore_files e prefix level)).
Proof.
  induction e as [name path | name path all IH] using entry_induction;
    intros prefix level.
  - cbn [inner]. destruct (level =? 0); constructor.
  - rewrite inner_unfold. destruct (level =? 0); [constructor|].
    now apply inner_loop_dirs_only.
Qed.

Lemma count_dirs_only (es : list (string * bool)) :
  Forall (fun le => snd le = true) es ->
  count_dirs es = List.length es /\ count_files es = 0%nat.
Proof.
  unfold count_dirs, count_files.
  induction 1 as [|le es Hle _ [IH1 IH2]]; [easy|].
  cbn [filter]. rewrite Hle. cbn [negb List.length]. now rewrite IH1, IH2.
Qed.

(** X19: with [limit_to_directories] no file is listed or counted: every
    line of the generator is counted as a directory, and the summary names
    the number of lines printed as the number of directories and has no
    part for files. *)
Theorem tree_of_directories_only :
  forall (fnmatch : string -> string -> bool) (ignore_files : list string)
         (dir_path : entry) (level : Z) (length_limit : nat),
    is_dir dir_path = true ->
    let found :=
      entries_of (inner fnmatch false true ignore_files dir_path "" level) in
    Forall (fun le => snd le = true) found
    /\ tree_of fnmatch false true ignore_files dir_path level length_limit
       = (List.app (entry_name dir_path :: map fst (firstn length_limit found))
            (List.app
               (if (length_limit <? List.length found)%nat
                then [cut_notice length_limit] else [])
               [nl ++ str_of_nat (List.length (firstn length_limit found))
                ++ " directories"]),
          Returned tt).
Proof.
  intros fnmatch ignore_files dir_path level n Hdir found.
  pose proof (inner_dirs_only fnmatch false ignore_files dir_path "" level)
    as Hdirs.
  fold found in Hdirs. split; [exact Hdirs|].
  rewrite (tree_prints_and_counts fnmatch true ignore_files dir_path level n Hdir).
  cbv zeta. fold found.
  destruct (count_dirs_only (firstn n found)) as [-> ->].
  { rewrite <- (firstn_skipn n found) in Hdirs.
    now apply Forall_app in Hdirs. }
  unfold summary. now rewrite append_empty_r.
Qed.

Lemma tree_of_directories_only_witness :
  tree_of fnmatch_wild false true [] sample_tree (-1) 1000
  = (["repo"; last ++ "src"; space ++ last ++ "deep"; nl ++ "2 directories"],
     Returned tt).
Proof.
  exact (proj2 (tree_of_directories_only fnmatch_wild [] sample_tree (-1) 1000
                  eq_refl)).
Defined.

(** X20: with the module-level [verbose] off, as at the script's one call
    of [tree] (line 174, before line 177 can set [verbose]), the listing
    never has more than [length_limit + 3] lines: the name, at most
    [length_limit] entries, the notice and the summary. *)
Theorem tree_line_bound :
  forall (fnmatch : string -> string -> bool) (limit_to_directories : bool)
         (ignore_files : list string) (dir_path : entry) (level : Z)
         (length_limit : nat),
    (List.length (fst (tree_of fnmatch false limit_to_directories ignore_files
                         dir_path level length_limit))
     <= length_limit + 3)%nat.
Proof.
  intros fnmatch limit ignore_files dir_path level n.
  destruct (is_dir dir_path) eqn:Hdir.
  - rewrite (tree_prints_and_counts fnmatch limit ignore_files dir_path level n Hdir).
    cbv zeta. cbn [fst]. rewrite !length_app. cbn [List.length].
    rewrite length_map, length_firstn.
    destruct (n <? _)%nat; cbn [List.length]; lia.
  - unfold tree_of. rewrite Hdir. cbn [negb andb].
    destruct dir_path as [name path | name path all]; [|discriminate].
    destruct (level =? 0) eqn:Hl; cbn [negb fst shown List.length]; [|lia].
    cbn [inner]. rewrite Hl. destruct n; cbn; lia.
Qed.

(** ** Output Splitter: chunks split again *)

Lemma lines_of_open (l : string) :
  no_newline l = true -> l <> "" -> lines_of l = [l].
Proof.
  induction l as [|c l IH]; [easy|]. intros Hl _.
  cbn [no_newline] in Hl. apply andb_true_iff in Hl. destruct Hl as [Hc Hl].
  apply negb_true_iff in Hc. cbn [lines_of]. rewrite Hc.
  destruct l as [|d l]; [reflexivity|].
  now rewrite (IH Hl) by discriminate.
Qed.

Lemma proper_lines_of (text : string) : proper (lines_of text).
Proof.
  induction text as [|c text IH]; [constructor|].
  cbn [lines_of]. destruct (Ascii.eqb c LF) eqn:Hc.
  - apply Ascii.eqb_eq in Hc. subst c.
    apply proper_cons; [now exists "" | exact IH].
  - destruct (lines_of text) as [|l ls].
    + apply proper_open. split; [|discriminate].
      cbn [no_newline]. now rewrite Hc.
    + inversion IH as [|l' [Hl Hne]|l' ls' [a [Ha Hl]] Hls]; subst.
      * apply proper_open. split; [|discriminate].
        cbn [no_newline]. now rewrite Hc, Hl.
      * apply proper_cons; [|exact Hls]. exists (String c a). split.
        -- cbn [no_newline]. now rewrite Hc, Ha.
        -- reflexivity.
Qed.

Lemma lines_of_proper (ls : list string) : proper ls -> lines_of (join ls) = ls.
Proof.
  induction 1 as [|l [Hl Hne]|l ls [a [Ha ->]] _ IH].
  - reflexivity.
  - now apply lines_of_open.
  - rewrite join_cons, (lines_of_line a (join ls) Ha). now rewrite IH.
Qed.

Lemma proper_app (a b : list string) : proper (a ++ b) -> proper a /\ proper b.
Proof.
  induction a as [|x a IH]; cbn [app]; intros H.
  - split; [constructor | exact H].
  - inversion H as [|l Hl Heq|l ls Hx Hrest]; subst.
    + destruct a; [|discriminate]. cbn [app] in *. subst b.
      split; [now apply proper_open | constructor].
    + destruct (IH Hrest) as [Ha Hb]. split; [now apply proper_cons | exact Hb].
Qed.

Lemma proper_concat (gs : list (list string)) :
  proper (List.concat gs) -> Forall proper gs.
Proof.
  induction gs as [|g gs IH]; cbn [List.concat]; intros H; constructor.
  - now apply proper_app in H.
  - apply IH. now apply proper_app in H.
Qed.

Lemma settled_step (st : grouper) (line : string) :
  group_size st = len (join (group st)) ->
  settled (group st) -> Forall settled (groups st) ->
  settled (group (group_step st line))
  /\ Forall settled (groups (group_step st line)).
Proof.
  intros Hsize Hg Hgs. destruct st as [gs g n].
  cbn [groups group group_size] in *. subst n.
  assert (Hsnoc : forall m, m = len (join g) + len line ->
            (startswith "----" line = true -> len (join g) <= 4000000) ->
            settled (g ++ [line])).
  { intros m Hm Hkeep. unfold settled in *.
    rewrite fold_left_app, Hg. cbn [fold_left].
    destruct (startswith "----" line) eqn:Hd.
    - rewrite group_keep by auto. now rewrite join_app, len_append.
    - rewrite group_plain by exact Hd. now rewrite join_app, len_append. }
  destruct (startswith "----" line) eqn:Hd.
  - destruct (Z.le_gt_cases (len (join g)) 4000000) as [Hle|Hgt].
    + rewrite group_keep by assumption. cbn [groups group]. split; [|exact Hgs].
      now apply (Hsnoc _ eq_refl).
    + rewrite group_flush by assumption. cbn [groups group]. split.
      * unfold settled. cbn [fold_left]. rewrite group_keep by (auto; lia).
        reflexivity.
      * apply Forall_app. split; [exact Hgs | now constructor].
  - rewrite group_plain by exact Hd. cbn [groups group]. split; [|exact Hgs].
    apply (Hsnoc _ eq_refl). discriminate.
Qed.

Lemma settled_fold (lines : list string) (st : grouper) :
  grouped st -> settled (group st) -> Forall settled (groups st) ->
  settled (group (fold_left group_step lines st))
  /\ Forall settled (groups (fold_left group_step lines st)).
Proof.
  revert st. induction lines as [|l lines IH]; intros st Hst Hg Hgs.
  - now split.
  - cbn [fold_left].
    destruct (settled_step st l (grouped_size st Hst) Hg Hgs) as [Hg' Hgs'].
    apply IH; [now apply grouped_step | exact Hg' | exact Hgs'].
Qed.

Lemma split_groups_settled (lines : list string) :
  Forall settled (split_groups lines).
Proof.
  unfold split_groups.
  destruct (settled_fold lines (mk_grouper [] [] 0) grouped_init)
    as [Hg Hgs]; [reflexivity | constructor|].
  apply Forall_app. split; [exact Hgs | now constructor].
Qed.

(** X21: a chunk file given to the splitter again comes back as one chunk
    file with the same text: the splitter does not cut its own chunks. *)
Theorem chunk_not_split_again :
  forall (file_path text name chunk other_path : string),
    In (name, chunk) (chunk_files file_path text) ->
    chunk_files other_path chunk = [(chunk_name other_path 0, chunk)].
Proof.
  intros file_path text name chunk other_path Hin.
  assert (Hc : In chunk (split_chunks (lines_of text))).
  { rewrite <- (chunk_files_contents file_path text).
    apply in_map_iff. now exists (name, chunk). }
  rewrite split_chunks_groups in Hc. apply in_map_iff in Hc.
  destruct Hc as [g [<- Hg]].
  assert (Hproper : proper g).
  { pose proof (proper_lines_of text) as H.
    rewrite <- (concat_split_groups (lines_of text)) in H.
    apply proper_concat in H. rewrite Forall_forall in H. now apply H. }
  assert (Hsettled : settled g).
  { pose proof (split_groups_settled (lines_of text)) as H.
    rewrite Forall_forall in H. now apply H. }
  unfold chunk_files. rewrite (lines_of_proper g Hproper).
  rewrite split_chunks_groups. unfold split_groups.
  unfold settled in Hsettled. rewrite Hsettled. reflexivity.
Qed.

Lemma chunk_not_split_again_witness :
  chunk_files "output_0.txt" Demo.output_text
  = [("output_0_0.txt", Demo.output_text)].
Proof.
  apply (chunk_not_split_again "output.txt" Demo.output_text "output_0.txt"
           Demo.output_text "output_0.txt").
  now left.
Defined.

Lemma heads_count (gs : list (list string)) :
  Forall starts_at_delimiter gs ->
  (List.length gs <= delimiter_lines (List.concat gs))%nat.
Proof.
  unfold delimiter_lines.
  induction 1 as [|g gs [d [r [-> Hd]]] _ IH]; [apply Nat.le_refl|].
  cbn [List.concat app filter]. rewrite Hd. cbn [List.length].
  rewrite filter_app, length_app. lia.
Qed.

(** X22: there is at most one chunk file more than the input has lines
    beginning with four hyphens. *)
Theorem chunk_count_at_most_delimiters :
  forall (file_path text : string),
    (List.length (chunk_files file_path text)
     <= 1 + delimiter_lines (lines_of text))%nat.
Proof.
  intros file_path text.
  rewrite <- (length_map snd), chunk_files_contents, split_chunks_groups, length_map.
  pose proof (concat_split_groups (lines_of text)) as Hcat.
  assert (Hheads : Forall starts_at_delimiter (tl (split_groups (lines_of text)))).
  { unfold split_groups.
    now pose proof (grouped_fold (lines_of text) _ grouped_init) as [_ _ H]. }
  destruct (split_groups (lines_of text)) as [|g gs]; [cbn; lia|].
  cbn [tl List.concat List.length] in *.
  pose proof (heads_count gs Hheads) as Hle.
  rewrite <- Hcat. unfold delimiter_lines in *.
  rewrite filter_app, length_app. lia.
Qed.

Example listing_before_output :
  screen (fst (main fnmatch_wild Demo.path_join Demo.relpath Demo.stat_size
                 Demo.read_text Demo.os_walk false "/opt/loader"
                 (tree_listing fnmatch_wild (fun _ => sample_tree))
                 String.eqb (fun _ => EmptyString)
                 ["loader.py"; "repo"; "-l"] (mk_host [] [])))
  = ["repo"; tee ++ "a.txt"; tee ++ "src"; branch ++ tee ++ "m.py";
     branch ++ last ++ "deep"; branch ++ space ++ last ++ "x";
     last ++ ESC ++ "[90mb.txt" ++ ESC ++ "[0m";
     nl ++ "2 directories, 4 files";
     "Repository contents written to output.txt."].
Proof. reflexivity. Qed.
